(** * Snowflake identifiers: a shallow embedding of [snowflake.go]

    The Go package builds 64-bit identifiers either from a clock
    ([SnowflakeNode.Next]) or from a semantic triple
    ([SemanticSnowflake.ToSnowflake]), and converts them from and to
    decimal strings.  Go's [int64] and [uint64] are modelled as [Z] with
    the wrap-around of every operation written out. *)

From Stdlib Require Import ZArith List Sorted Lia Bool Ascii String SpecFloat Btauto.
From coqutil Require Import Z.bitblast.
Import ListNotations.
Local Open Scope Z_scope.

(** ** Fixed-width integers *)

Module Int64.

(** The values of Go's [int64]. *)
Definition in_range (z : Z) : Prop := - 2 ^ 63 <= z < 2 ^ 63.

(** Conversion [int64(x)]: keep the low 64 bits, read as two's complement. *)
Definition to_int64 (z : Z) : Z := (z + 2 ^ 63) mod 2 ^ 64 - 2 ^ 63.

(** Conversion [uint64(x)]: keep the low 64 bits, read as unsigned. *)
Definition to_uint64 (z : Z) : Z := z mod 2 ^ 64.

(** [x << k] on an [int64]: the bits shifted out are lost. *)
Definition shl (x k : Z) : Z := to_int64 (Z.shiftl x k).

(** [x << k] on a [uint64]. *)
Definition ushl (x k : Z) : Z := to_uint64 (Z.shiftl x k).

(** [x >> k] on a [uint64]: a logical shift. *)
Definition ushr (x k : Z) : Z := Z.shiftr x k.

(** Go's [%] truncates towards zero: the sign follows the dividend. *)
Definition rem (x m : Z) : Z := Z.rem x m.

End Int64.

(** ** The semantic codec *)

(** [type Snowflake int64] *)
Definition Snowflake : Type := Z.

Record SemanticSnowflake : Type := mkSemantic {
  ID : Z;
  NodeID : Z;
  TypeID : Z;
  GlobalTypeID : Z
}.

Definition NewSemanticSnowflake (flake : Snowflake) : SemanticSnowflake :=
  let id := Int64.to_uint64 flake in
  let id := Int64.ushr id 23 in
  let nodeid := Int64.to_uint64 flake in
  let nodeid := Int64.ushl nodeid 41 in
  let nodeid := Int64.ushr nodeid 51 in
  let typeid := Int64.to_uint64 flake in
  let typeid := Z.land typeid (Z.shiftl 1 10 - 1) in
  let gtid := Int64.to_uint64 flake in
  let gtid := Z.land gtid (Z.shiftl 1 23 - 1) in
  {| ID := Int64.to_int64 id;
     NodeID := Int64.to_int64 nodeid;
     TypeID := Int64.to_int64 typeid;
     GlobalTypeID := Int64.to_int64 gtid |}.

Definition GetID (s : SemanticSnowflake) : Z := ID s.

Definition GetNodeID (s : SemanticSnowflake) : Z :=
  Int64.to_int64 (Int64.rem (NodeID s) 8192).

Definition GetTypeID (s : SemanticSnowflake) : Z :=
  Int64.to_int64 (Int64.rem (TypeID s) 1024).

Definition ToSnowflake (s : SemanticSnowflake) : Snowflake :=
  let i := Int64.shl (ID s) 23 in
  let i := Z.lor i (Int64.shl (GetNodeID s) 10) in
  let i := Z.lor i (GetTypeID s) in
  i.

(** The three fields of a triple that [ToSnowflake] reads. *)
Definition triple (s : SemanticSnowflake) : Z * Z * Z :=
  (ID s, NodeID s, TypeID s).

(** ** The clock-based generator *)

Definition baseEpoch : Z := 1611252000000.
Definition baseSeqIdBits : Z := 12.
Definition baseNodeBits : Z := 10.

(** The fields of [SnowflakeNode] that [Next] reads or writes.  The mutex
    serialises the calls, and [epoch] only fixes the origin of the clock
    readings; both are left to the clock trace below. *)
Record SnowflakeNode : Type := mkNode {
  sequence : Z;
  epochBits : Z;
  nodeIdBits : Z;
  seqIdBits : Z;
  seqStep : Z;
  timeStep : Z;
  nodeStep : Z;
  time : Z;
  nodeId : Z
}.

Definition NewSnowflakeNode (shardId : Z) : SnowflakeNode :=
  {| sequence := 0;
     epochBits := 41;
     nodeIdBits := 10;
     seqIdBits := baseSeqIdBits;
     nodeId := Int64.to_int64 shardId;
     seqStep := Z.lxor (-1) (Z.shiftl (-1) baseSeqIdBits);
     timeStep := (baseNodeBits + baseSeqIdBits) mod 2 ^ 8;
     nodeStep := baseNodeBits;
     time := 0 |}.

(** A clock is the list of the values that the successive calls of
    [time.Since(self.epoch).Nanoseconds()] return. *)
Definition Clock : Type := list Z.

(** [ns / 1000000] on [int64]: Go's division truncates. *)
Definition millis (ns : Z) : Z := Z.quot ns 1000000.

(** The loop [for now <= self.time { now = ... }]: it reads the clock until
    the millisecond moves past [self_time]; [None] when the trace ends
    before that. *)
Fixpoint wait_next (self_time now : Z) (clock : Clock) {struct clock}
  : option (Z * Clock) :=
  if now <=? self_time then
    match clock with
    | [] => None
    | ns :: rest => wait_next self_time (millis ns) rest
    end
  else Some (now, clock).

(** The critical section of [Next]: the chosen sequence, the chosen [now]
    and what is left of the clock. *)
Definition choose (self : SnowflakeNode) (now : Z) (clock : Clock)
  : option (Z * Z * Clock) :=
  if now =? time self then
    let seq := Z.land (Int64.to_int64 (sequence self + 1)) (seqStep self) in
    if seq =? 0 then
      match wait_next (time self) now clock with
      | Some (now', clock') => Some (seq, now', clock')
      | None => None
      end
    else Some (seq, now, clock)
  else Some (0, now, clock).

Definition Next (self : SnowflakeNode) (clock : Clock)
  : option (Snowflake * SnowflakeNode * Clock) :=
  match clock with
  | [] => None
  | ns :: clock1 =>
    match choose self (millis ns) clock1 with
    | None => None
    | Some (seq, now, clock2) =>
      let self' :=
        {| sequence := seq;
           epochBits := epochBits self;
           nodeIdBits := nodeIdBits self;
           seqIdBits := seqIdBits self;
           seqStep := seqStep self;
           timeStep := timeStep self;
           nodeStep := nodeStep self;
           time := now;
           nodeId := nodeId self |} in
      let id :=
        Z.lor (Z.lor (Int64.shl now (timeStep self))
                     (Int64.shl (nodeId self) (nodeStep self)))
              seq in
      Some (id, self', clock2)
    end
  end.

(** [n] calls of [Next], one after the other, on one generator. *)
Fixpoint NextN (n : nat) (self : SnowflakeNode) (clock : Clock)
  : option (list Snowflake * SnowflakeNode * Clock) :=
  match n with
  | O => Some ([], self, clock)
  | S n' =>
    match Next self clock with
    | None => None
    | Some (id, self', clock') =>
      match NextN n' self' clock' with
      | None => None
      | Some (ids, self'', clock'') => Some (id :: ids, self'', clock'')
      end
    end
  end.

(** ** Decimal strings: Go's [strconv]

    [strconv.FormatInt] and [strconv.ParseInt] belong to Go's standard
    library.  They are written here for the only arguments the package
    passes them, base 10 and bit size 64.  [ParseInt] and [ParseUint] follow
    the library's code; [FormatInt] writes the digits one at a time where
    the library writes them two at a time. *)

Module strconv.

Inductive NumError : Type := ErrSyntax | ErrRange.

Definition base : Z := 10.
Definition maxUint64 : Z := 2 ^ 64 - 1.

(** [lower(c)] is [c | ('x' - 'X')]. *)
Definition lower (c : Z) : Z := Z.lor c 32.

(** The value of one byte as a digit, before the test against the base. *)
Definition digit_value (c : ascii) : option Z :=
  let b := Z.of_N (N_of_ascii c) in
  if (48 <=? b) && (b <=? 57) then Some (b - 48)
  else if (97 <=? lower b) && (lower b <=? 122) then Some (lower b - 97 + 10)
  else None.

(** The loop of [ParseUint] over the bytes of the string, [n] being the
    number read so far. *)
Fixpoint ParseUint_loop (s : string) (n : Z) : Z * option NumError :=
  match s with
  | EmptyString => (n, None)
  | String c rest =>
    match digit_value c with
    | None => (0, Some ErrSyntax)
    | Some d =>
      if base <=? d then (0, Some ErrSyntax)
      else if maxUint64 / 10 + 1 <=? n then (maxUint64, Some ErrRange)
      else
        let n := Int64.to_uint64 (n * base) in
        let n1 := Int64.to_uint64 (n + d) in
        if (n1 <? n) || (maxUint64 <? n1) then (maxUint64, Some ErrRange)
        else ParseUint_loop rest n1
    end
  end.

Definition ParseUint (s : string) : Z * option NumError :=
  match s with
  | EmptyString => (0, Some ErrSyntax)
  | _ => ParseUint_loop s 0
  end.

Definition ParseInt (s : string) : Z * option NumError :=
  match s with
  | EmptyString => (0, Some ErrSyntax)
  | String c0 rest =>
    let '(neg, s1) :=
      if Ascii.eqb c0 "+" then (false, rest)
      else if Ascii.eqb c0 "-" then (true, rest)
      else (false, s) in
    let '(un, err) := ParseUint s1 in
    match err with
    | Some ErrSyntax => (0, err)
    | _ =>
      let cutoff := 2 ^ 63 in
      if negb neg && (cutoff <=? un) then (Int64.to_int64 (cutoff - 1), Some ErrRange)
      else if neg && (cutoff <? un) then (Int64.to_int64 (- cutoff), Some ErrRange)
      else
        let n := Int64.to_int64 un in
        let n := if neg then Int64.to_int64 (- n) else n in
        (n, None)
    end
  end.

Definition digit_char (d : Z) : ascii := ascii_of_N (Z.to_N (48 + d)).

(** The decimal digits of [u], the most significant first, put in front
    of [acc]; twenty digits are enough for a [uint64]. *)
Fixpoint formatBits (fuel : nat) (u : Z) (acc : string) : string :=
  match fuel with
  | O => acc
  | S fuel' =>
    let acc' := String (digit_char (u mod 10)) acc in
    if u <? 10 then acc' else formatBits fuel' (u / 10) acc'
  end.

Definition FormatInt (i : Z) : string :=
  let neg := i <? 0 in
  let u := Int64.to_uint64 i in
  let u := if neg then Int64.to_uint64 (- u) else u in
  let digits := formatBits 20 u EmptyString in
  if neg then String "-" digits else digits.

End strconv.

(** ** The wire form *)

(** [type NetSnowflake string] *)
Definition NetSnowflake : Type := string.

Definition FromString (id : string) : Snowflake :=
  let '(i, err) := strconv.ParseInt id in
  match err with
  | Some _ => Int64.to_int64 (-1)
  | None => i
  end.

Definition NewNetSnowflake (i : Z) : NetSnowflake := strconv.FormatInt i.

Definition Valid (s : NetSnowflake) : bool :=
  let '(i, err) := strconv.ParseInt s in
  match err with
  | Some _ => false
  | None => if i <? 0 then false else true
  end.

Definition ToID (s : NetSnowflake) : Z :=
  let '(i, err) := strconv.ParseInt s in
  match err with
  | Some _ => -1
  | None => i
  end.

Definition ToNetSnowflake (s : SemanticSnowflake) : NetSnowflake :=
  NewNetSnowflake (ToSnowflake s).

(** ** The JSON adapter

    [UnmarshalJSON] first calls [json.Unmarshal(b, &itm)] with [itm] an
    empty interface, then switches on the dynamic type of [itm].  The
    decoder belongs to Go's library: [UnmarshalJSON] takes its outcome, an
    error or a dynamic value, as an argument. *)

(** [float64] is IEEE 754 binary64. *)
Definition float64 : Type := spec_float.

(** The dynamic values an empty interface can hold after decoding, with the
    two integer types the switch also names. *)
Inductive any : Type :=
| AnyNil
| AnyBool (b : bool)
| AnyInt (v : Z)
| AnyInt64 (v : Z)
| AnyFloat64 (f : float64)
| AnyString (s : string)
| AnySlice
| AnyMap.

(** The errors [UnmarshalJSON] can return. *)
Inductive error : Type :=
| JsonError
| NumError (e : strconv.NumError).

(** The conversion [int(v)] of a [float64]: the fraction is discarded.  Go
    leaves the result to the implementation when the value does not fit;
    the smallest [int64] is what amd64 gives. *)
Definition float64_to_int (f : float64) : Z :=
  let min := - 2 ^ 63 in
  match f with
  | S754_zero _ => 0
  | S754_finite sign m e =>
    let num := cond_Zopp sign (Zpos m) * 2 ^ Z.max e 0 in
    let den := 2 ^ Z.max (- e) 0 in
    let t := Z.quot num den in
    if (min <=? t) && (t <? 2 ^ 63) then t else min
  | S754_infinity _ => min
  | S754_nan => min
  end.

(** The nearest [float64] of an integer, ties to even. *)
Definition float64_of_Z (n : Z) : float64 := binary_normalize 53 1024 n 0 false.

(** What [json.Unmarshal] stores in an empty interface for the JSON number
    written as the integer [n]: always a [float64]. *)
Definition json_number (n : Z) : error + any := inr (AnyFloat64 (float64_of_Z n)).

(** What it stores for a JSON string whose content is [s]. *)
Definition json_string (s : string) : error + any := inr (AnyString s).

(** [UnmarshalJSON]: the new value of the receiver and the error returned. *)
Definition UnmarshalJSON (decoded : error + any) (sf : Snowflake)
  : Snowflake * option error :=
  match decoded with
  | inl err => (sf, Some err)
  | inr itm =>
    match itm with
    | AnyInt v => (Int64.to_int64 v, None)
    | AnyFloat64 v => (Int64.to_int64 (float64_to_int v), None)
    | AnyInt64 v => (v, None)
    | AnyString v =>
      let '(i, err) := strconv.ParseInt v in
      match err with
      | Some e => (sf, Some (NumError e))
      | None => (i, None)
      end
    | _ => (sf, None)
    end
  end.

Definition quote : string := String (ascii_of_nat 34) EmptyString.

Definition MarshalJSON (sf : Snowflake) : string * option error :=
  let val := (quote ++ strconv.FormatInt sf ++ quote)%string in
  (val, None).

(** ** Configurations of the generator *)

(** The layout constants that [NewSnowflakeNode] sets and [Next] never
    changes. *)
Definition configured (self : SnowflakeNode) : Prop :=
  seqStep self = 4095 /\ timeStep self = 22 /\ nodeStep self = 10.

(** The identifiers of [n] calls of [Next] in a row, when they all return. *)
Definition identifiers (n : nat) (self : SnowflakeNode) (clock : Clock)
  : list Snowflake :=
  match NextN n self clock with
  | Some (ids, _, _) => ids
  | None => []
  end.

(** A clock that never goes back, read from millisecond [t] on, whose
    milliseconds fit 41 bits. *)
Definition steady (t : Z) (clock : Clock) : Prop :=
  StronglySorted (fun a b => millis a <= millis b) clock /\
  Forall (fun ns => t <= millis ns < 2 ^ 41) clock.

(** The time, the node id shifted by 10 and the sequence of a state, added
    up. *)
Definition key (self : SnowflakeNode) : Z :=
  time self * 2 ^ 22 + nodeId self * 2 ^ 10 + sequence self.

(** The state a generator can be in before a call: the layout constants of
    [NewSnowflakeNode], a node id of 10 bits, a sequence of 12 bits and a
    time that is not negative. *)
Definition ready (self : SnowflakeNode) : Prop :=
  configured self /\ 0 <= nodeId self < 1024 /\
  0 <= sequence self <= 4095 /\ 0 <= time self.

(** ** Decimal numerals *)

(** The bytes ['0'] to ['9']. *)
Definition is_digit (c : ascii) : bool :=
  let b := Z.of_N (N_of_ascii c) in (48 <=? b) && (b <=? 57).

(** The number that the digits of [s] write after the number [n], without
    any bound; [None] when a byte of [s] is not a digit. *)
Fixpoint digits_value (s : string) (n : Z) : option Z :=
  match s with
  | EmptyString => Some n
  | String c rest =>
    if is_digit c then digits_value rest (10 * n + (Z.of_N (N_of_ascii c) - 48))
    else None
  end.

(** The number written by at least one digit. *)
Definition numeral (s : string) : option Z :=
  match s with
  | EmptyString => None
  | _ => digits_value s 0
  end.

(** The integer written by an optional sign and at least one digit. *)
Definition signed_numeral (s : string) : option Z :=
  match s with
  | EmptyString => None
  | String c rest =>
    if Ascii.eqb c "+" then numeral rest
    else if Ascii.eqb c "-" then option_map Z.opp (numeral rest)
    else numeral s
  end.

(** * Properties *)

(** ** Fixed-width integers and the codec's bit fields *)

(** Equalities of integers, bit by bit; a bit of negative index is off. *)
Ltac bits :=
  Z.bitblast;
  repeat match goal with
         | |- context [Z.testbit ?a ?i] => rewrite (Z.testbit_neg_r a i) by lia
         end;
  try btauto.

Lemma to_int64_small z : Int64.in_range z -> Int64.to_int64 z = z.
Proof.
  unfold Int64.in_range, Int64.to_int64. intros H.
  rewrite Z.mod_small by lia. lia.
Qed.

Lemma to_int64_range z : Int64.in_range (Int64.to_int64 z).
Proof.
  unfold Int64.in_range, Int64.to_int64.
  pose proof (Z.mod_pos_bound (z + 2 ^ 63) (2 ^ 64) ltac:(lia)). lia.
Qed.

Lemma to_uint64_to_int64 z : Int64.to_uint64 (Int64.to_int64 z) = Int64.to_uint64 z.
Proof.
  unfold Int64.to_uint64, Int64.to_int64.
  rewrite Zminus_mod_idemp_l. f_equal. lia.
Qed.

Lemma to_uint64_lor a b :
  Int64.to_uint64 (Z.lor a b) = Z.lor (Int64.to_uint64 a) (Int64.to_uint64 b).
Proof. unfold Int64.to_uint64. Z.bitblast. Qed.

Lemma decode_fields (flake : Z) :
  NewSemanticSnowflake flake =
  {| ID := (flake mod 2 ^ 64) / 2 ^ 23;
     NodeID := (flake / 2 ^ 10) mod 2 ^ 13;
     TypeID := flake mod 2 ^ 10;
     GlobalTypeID := flake mod 2 ^ 23 |}.
Proof.
  unfold NewSemanticSnowflake, Int64.ushr, Int64.ushl, Int64.to_uint64.
  f_equal.
  - rewrite to_int64_small.
    + rewrite Z.shiftr_div_pow2 by lia. reflexivity.
    + unfold Int64.in_range. rewrite Z.shiftr_div_pow2 by lia.
      pose proof (Z.mod_pos_bound flake (2 ^ 64) ltac:(lia)).
      Z.div_mod_to_equations. lia.
  - assert (E : Z.shiftr (Z.shiftl (flake mod 2 ^ 64) 41 mod 2 ^ 64) 51
                = (flake / 2 ^ 10) mod 2 ^ 13) by Z.bitblast.
    rewrite E. apply to_int64_small. unfold Int64.in_range.
    pose proof (Z.mod_pos_bound (flake / 2 ^ 10) (2 ^ 13) ltac:(lia)). lia.
  - assert (E : Z.land (flake mod 2 ^ 64) (Z.shiftl 1 10 - 1) = flake mod 2 ^ 10).
    { change (Z.shiftl 1 10 - 1) with (Z.ones 10). Z.bitblast. }
    rewrite E. apply to_int64_small. unfold Int64.in_range.
    pose proof (Z.mod_pos_bound flake (2 ^ 10) ltac:(lia)). lia.
  - assert (E : Z.land (flake mod 2 ^ 64) (Z.shiftl 1 23 - 1) = flake mod 2 ^ 23).
    { change (Z.shiftl 1 23 - 1) with (Z.ones 23). Z.bitblast. }
    rewrite E. apply to_int64_small. unfold Int64.in_range.
    pose proof (Z.mod_pos_bound flake (2 ^ 23) ltac:(lia)). lia.
Qed.

Lemma rem_small x m : 0 <= x < m -> Int64.rem x m = x.
Proof. intros H. unfold Int64.rem. apply Z.rem_small. lia. Qed.

Lemma GetNodeID_in_range o n t g :
  0 <= n < 8192 -> GetNodeID (mkSemantic o n t g) = n.
Proof.
  intros H. unfold GetNodeID; simpl. rewrite rem_small by lia.
  apply to_int64_small. unfold Int64.in_range. lia.
Qed.

Lemma GetTypeID_in_range o n t g :
  0 <= t < 1024 -> GetTypeID (mkSemantic o n t g) = t.
Proof.
  intros H. unfold GetTypeID; simpl. rewrite rem_small by lia.
  apply to_int64_small. unfold Int64.in_range. lia.
Qed.

(** The low 64 bits of an encoded triple. *)
Lemma ToSnowflake_bits s :
  Int64.to_uint64 (ToSnowflake s) =
  Z.lor (Z.lor (Z.shiftl (ID s) 23 mod 2 ^ 64)
               (Z.shiftl (GetNodeID s) 10 mod 2 ^ 64))
        (GetTypeID s mod 2 ^ 64).
Proof.
  unfold ToSnowflake, Int64.shl.
  rewrite !to_uint64_lor, !to_uint64_to_int64. reflexivity.
Qed.

Lemma roundtrip_in_range o n t g :
  0 <= o < 2 ^ 41 -> 0 <= n < 8192 -> 0 <= t < 1024 ->
  NewSemanticSnowflake (ToSnowflake (mkSemantic o n t g)) =
  mkSemantic o n t (n * 1024 + t).
Proof.
  intros Ho Hn Ht.
  pose proof (ToSnowflake_bits (mkSemantic o n t g)) as B.
  rewrite GetNodeID_in_range, GetTypeID_in_range in B by lia. cbn [ID] in B.
  rewrite decode_fields.
  unfold Int64.to_uint64 in B.
  set (f := ToSnowflake (mkSemantic o n t g)) in *. clearbody f.
  rewrite <- (Z.mod_small o (2 ^ 41)) in B by lia.
  rewrite <- (Z.mod_small n (2 ^ 13)) in B by lia.
  rewrite <- (Z.mod_small t (2 ^ 10)) in B by lia.
  assert (E1 : (f mod 2 ^ 64) / 2 ^ 23 = o mod 2 ^ 41) by (rewrite B; bits).
  assert (E2 : (f / 2 ^ 10) mod 2 ^ 13 = n mod 2 ^ 13).
  { replace ((f / 2 ^ 10) mod 2 ^ 13) with (((f mod 2 ^ 64) / 2 ^ 10) mod 2 ^ 13)
      by bits.
    rewrite B. bits. }
  assert (E3 : f mod 2 ^ 10 = t mod 2 ^ 10).
  { replace (f mod 2 ^ 10) with ((f mod 2 ^ 64) mod 2 ^ 10) by bits.
    rewrite B. bits. }
  assert (E4 : f mod 2 ^ 23 = (n mod 2 ^ 13) * 1024 + t mod 2 ^ 10).
  { replace (f mod 2 ^ 23) with ((f mod 2 ^ 64) mod 2 ^ 23) by bits.
    rewrite B.
    replace ((n mod 2 ^ 13) * 1024) with (Z.shiftl (n mod 2 ^ 13) 10)
      by (rewrite Z.shiftl_mul_pow2 by lia; reflexivity).
    rewrite <- Z.or_to_plus; bits. }
  rewrite E1, E2, E3, E4.
  rewrite !Z.mod_small by lia. reflexivity.
Qed.

Lemma rem_rem x m : 0 < m -> Int64.rem (Int64.rem x m) m = Int64.rem x m.
Proof.
  intros Hm. unfold Int64.rem.
  destruct (Z.le_gt_cases 0 x) as [Hx | Hx].
  - apply Z.rem_small. apply Z.rem_bound_pos; lia.
  - replace x with (- (- x)) by lia.
    rewrite (Z.rem_opp_l' (- x) m), Z.rem_opp_l'. f_equal.
    apply Z.rem_small. apply Z.rem_bound_pos; lia.
Qed.

Lemma rem_abs_bound x m : 0 < m -> - m < Int64.rem x m < m.
Proof.
  intros Hm. unfold Int64.rem.
  pose proof (Z.rem_bound_abs x m ltac:(lia)). lia.
Qed.

Lemma ToSnowflake_reduced o n t g g' :
  ToSnowflake (mkSemantic o n t g) =
  ToSnowflake (mkSemantic o (Int64.rem n 8192) (Int64.rem t 1024) g').
Proof.
  unfold ToSnowflake, GetNodeID, GetTypeID. cbn [ID NodeID TypeID].
  rewrite !rem_rem by lia. reflexivity.
Qed.

Lemma rem_nonneg x m : 0 <= x -> 0 < m -> Int64.rem x m = x mod m.
Proof. intros. unfold Int64.rem. apply Z.rem_mod_nonneg; lia. Qed.

Lemma ToSnowflake_clamped o n t g g' :
  0 <= n -> 0 <= t ->
  ToSnowflake (mkSemantic o n t g) =
  ToSnowflake (mkSemantic o (n mod 8192) (t mod 1024) g').
Proof.
  intros Hn Ht. rewrite (ToSnowflake_reduced o n t g g').
  rewrite !rem_nonneg by lia. reflexivity.
Qed.

Lemma lor_bounded k a b :
  0 <= k -> 0 <= a < 2 ^ k -> 0 <= b < 2 ^ k -> 0 <= Z.lor a b < 2 ^ k.
Proof.
  intros Hk Ha Hb.
  assert (E : Z.lor a b = Z.lor a b mod 2 ^ k).
  { rewrite <- (Z.mod_small a (2 ^ k)) at 1 by lia.
    rewrite <- (Z.mod_small b (2 ^ k)) at 1 by lia.
    bits. }
  rewrite E. apply Z.mod_pos_bound. lia.
Qed.

Lemma shl_small x k :
  0 <= k -> 0 <= x -> x * 2 ^ k < 2 ^ 63 -> Int64.shl x k = x * 2 ^ k.
Proof.
  intros Hk Hx Hb. unfold Int64.shl. rewrite Z.shiftl_mul_pow2 by lia.
  apply to_int64_small. unfold Int64.in_range. nia.
Qed.

Lemma ToSnowflake_nonneg_40 o n t g :
  0 <= o < 2 ^ 40 -> 0 <= n < 8192 -> 0 <= t < 1024 ->
  0 <= ToSnowflake (mkSemantic o n t g) < 2 ^ 63.
Proof.
  intros Ho Hn Ht. unfold ToSnowflake.
  rewrite GetNodeID_in_range, GetTypeID_in_range by lia. cbn [ID].
  rewrite !shl_small by lia.
  repeat apply lor_bounded; lia.
Qed.

(** ** The generator *)

Lemma NewSnowflakeNode_configured shard : configured (NewSnowflakeNode shard).
Proof. repeat split. Qed.

Lemma wait_next_reads t now clock now' clock' :
  wait_next t now clock = Some (now', clock') ->
  t < now' /\ (now' = now \/ exists ns, In ns clock /\ now' = millis ns).
Proof.
  revert now. induction clock as [| ns rest IH]; intros now; simpl.
  - destruct (Z.leb_spec now t); [discriminate |].
    intros [= <- <-]. auto.
  - destruct (Z.leb_spec now t).
    + intros H'. apply IH in H' as [Hlt [-> | (ns' & Hin & ->)]].
      * split; [assumption |]. right. exists ns. auto.
      * split; [assumption |]. right. exists ns'. auto.
    + intros [= <- <-]. auto.
Qed.

Lemma choose_reads self now clock seq now' clock' :
  choose self now clock = Some (seq, now', clock') ->
  (now' = now \/ exists ns, In ns clock /\ now' = millis ns) /\
  (seq = 0 \/ seq = Z.land (Int64.to_int64 (sequence self + 1)) (seqStep self)).
Proof.
  unfold choose. destruct (now =? time self).
  - destruct (_ =? 0) eqn:E.
    + destruct (wait_next _ _ _) as [[n c] |] eqn:W; [| discriminate].
      intros [= <- <- <-]. apply wait_next_reads in W as [_ W]. auto.
    + intros [= <- <- <-]. auto.
  - intros [= <- <- <-]. auto.
Qed.

(** What one call of [Next] returns and leaves behind. *)
Lemma Next_inv self clock id self' clock' :
  Next self clock = Some (id, self', clock') ->
  id = Z.lor (Z.lor (Int64.shl (time self') (timeStep self))
                    (Int64.shl (nodeId self) (nodeStep self)))
             (sequence self') /\
  (exists ns, In ns clock /\ time self' = millis ns) /\
  (sequence self' = 0 \/
   sequence self' = Z.land (Int64.to_int64 (sequence self + 1)) (seqStep self)) /\
  seqStep self' = seqStep self /\ timeStep self' = timeStep self /\
  nodeStep self' = nodeStep self /\ nodeId self' = nodeId self.
Proof.
  unfold Next. destruct clock as [| ns clock1]; [discriminate |].
  destruct (choose _ _ _) as [[[seq now] c] |] eqn:C; [| discriminate].
  intros [= <- <- <-]. cbn.
  apply choose_reads in C as [Hn Hs].
  repeat split; auto.
  destruct Hn as [-> | (ns' & Hin & ->)]; [exists ns | exists ns']; simpl; auto.
Qed.

Lemma land_4095_range x : 0 <= Z.land x 4095 <= 4095.
Proof.
  change 4095 with (Z.ones 12). rewrite Z.land_ones by lia.
  pose proof (Z.mod_pos_bound x (2 ^ 12) ltac:(lia)).
  change (Z.ones 12) with (2 ^ 12 - 1). lia.
Qed.

Lemma Next_nonneg self clock id self' clock' :
  configured self -> 0 <= nodeId self < 1024 ->
  (forall ns, In ns clock -> 0 <= millis ns < 2 ^ 41) ->
  Next self clock = Some (id, self', clock') ->
  0 <= id < 2 ^ 63.
Proof.
  intros (Hs & Ht & Hn) Hnode Hclock HN.
  apply Next_inv in HN as (-> & (ns & Hin & Htime) & Hseq & _).
  rewrite Ht, Hn, Htime. specialize (Hclock ns Hin).
  rewrite !shl_small by lia.
  assert (0 <= sequence self' <= 4095).
  { destruct Hseq as [-> | ->]; [lia |]. rewrite Hs. apply land_4095_range. }
  repeat apply lor_bounded; lia.
Qed.

Lemma wait_next_incl t now clock now' clock' :
  wait_next t now clock = Some (now', clock') -> incl clock' clock.
Proof.
  revert now. induction clock as [| ns rest IH]; intros now; simpl.
  - destruct (now <=? t); [discriminate |]. intros [= _ <-]. apply incl_refl.
  - destruct (now <=? t).
    + intros H. apply incl_tl. eapply IH, H.
    + intros [= _ <-]. apply incl_refl.
Qed.

Lemma Next_incl self clock id self' clock' :
  Next self clock = Some (id, self', clock') -> incl clock' clock.
Proof.
  unfold Next, choose. destruct clock as [| ns clock1]; [discriminate |].
  destruct (_ =? time self).
  - destruct (_ =? 0).
    + destruct (wait_next _ _ _) as [[n c] |] eqn:W; [| discriminate].
      intros [= _ _ <-]. apply incl_tl. eapply wait_next_incl, W.
    + intros [= _ _ <-]. apply incl_tl, incl_refl.
  - intros [= _ _ <-]. apply incl_tl, incl_refl.
Qed.

Lemma NextN_nonneg n : forall self clock ids self' clock',
  configured self -> 0 <= nodeId self < 1024 ->
  (forall ns, In ns clock -> 0 <= millis ns < 2 ^ 41) ->
  NextN n self clock = Some (ids, self', clock') ->
  Forall (fun id => 0 <= id < 2 ^ 63) ids.
Proof.
  induction n as [| n IH]; intros self clock ids self' clock' Hc Hnode Hclock; simpl.
  - intros [= <- _ _]. constructor.
  - destruct (Next self clock) as [[[id s1] c1] |] eqn:N1; [| discriminate].
    destruct (NextN n s1 c1) as [[[ids1 s2] c2] |] eqn:N2; [| discriminate].
    intros [= <- _ _]. constructor.
    + eapply Next_nonneg; eauto.
    + pose proof (Next_incl _ _ _ _ _ N1) as Hincl.
      apply Next_inv in N1 as (_ & _ & _ & E1 & E2 & E3 & E4).
      eapply IH; [| | | exact N2].
      * destruct Hc as (? & ? & ?). repeat split; congruence.
      * rewrite E4. assumption.
      * intros ns Hin. apply Hclock, Hincl, Hin.
Qed.



Lemma steady_tail t ns clock : steady t (ns :: clock) -> steady (millis ns) clock.
Proof.
  intros [S F]. apply StronglySorted_inv in S as [S Hle].
  inversion F as [| ? ? Hns F']; subst. split; [assumption |].
  rewrite Forall_forall in *. intros x Hx. specialize (Hle x Hx). specialize (F' x Hx). lia.
Qed.

Lemma steady_weaken t t' clock : t' <= t -> steady t clock -> steady t' clock.
Proof.
  intros Hle [S F]. split; [assumption |].
  rewrite Forall_forall in *. intros x Hx. specialize (F x Hx). lia.
Qed.

Lemma wait_next_steady t now clock now' clock' :
  steady now clock -> 0 <= now < 2 ^ 41 ->
  wait_next t now clock = Some (now', clock') ->
  (t < now' < 2 ^ 41 /\ now <= now') /\ steady now' clock'.
Proof.
  revert now. induction clock as [| ns rest IH]; intros now St Hnow; simpl.
  - destruct (Z.leb_spec now t); [discriminate |]. intros [= <- <-].
    split; [lia | assumption].
  - destruct (Z.leb_spec now t).
    + intros W. pose proof (steady_tail _ _ _ St) as St'.
      destruct St as [_ F]. inversion F as [| ? ? Hns _]; subst.
      apply IH in W as [? ?]; [| assumption | lia].
      split; [lia | assumption].
    + intros [= <- <-]. split; [lia | assumption].
Qed.

Lemma land_4095_succ seq :
  0 <= seq <= 4095 ->
  Z.land (Int64.to_int64 (seq + 1)) 4095 = if seq =? 4095 then 0 else seq + 1.
Proof.
  intros Hs. rewrite to_int64_small by (unfold Int64.in_range; lia).
  change 4095 with (Z.ones 12) at 1. rewrite Z.land_ones by lia.
  destruct (Z.eqb_spec seq 4095) as [-> | Hne]; [reflexivity |].
  apply Z.mod_small. lia.
Qed.

(** With a node id that is a multiple of 4 the three fields do not overlap
    and the identifier is their sum. *)
Lemma fields_sum now node seq :
  0 <= now < 2 ^ 41 -> 0 <= node < 1024 -> node mod 4 = 0 -> 0 <= seq <= 4095 ->
  Z.lor (Z.lor (Int64.shl now 22) (Int64.shl node 10)) seq =
  now * 2 ^ 22 + node * 2 ^ 10 + seq.
Proof.
  intros Hnow Hnode H4 Hseq. rewrite !shl_small by lia.
  pose proof (Z.div_mod node 4 ltac:(lia)) as E. rewrite H4, Z.add_0_r in E.
  set (k := node / 4) in *. assert (Hk : 0 <= k < 2 ^ 8) by lia.
  replace (node * 2 ^ 10) with (Z.shiftl (k mod 2 ^ 8) 12)
    by (rewrite Z.shiftl_mul_pow2, Z.mod_small by lia; lia).
  replace (now * 2 ^ 22) with (Z.shiftl now 22)
    by (rewrite Z.shiftl_mul_pow2 by lia; reflexivity).
  rewrite <- (Z.mod_small seq (2 ^ 12)) by lia.
  rewrite (Z.or_to_plus (Z.lor _ _)) by bits.
  rewrite Z.or_to_plus by bits. reflexivity.
Qed.

Lemma Next_key_increases self clock id self' clock' :
  ready self -> nodeId self mod 4 = 0 -> steady (time self) clock ->
  Next self clock = Some (id, self', clock') ->
  id = key self' /\ key self < key self' /\
  ready self' /\ nodeId self' = nodeId self /\ steady (time self') clock'.
Proof.
  intros ((Hs & Ht & Hn) & Hnode & Hseq & Htime) H4 St.
  unfold Next. destruct clock as [| ns clock1]; [discriminate |].
  pose proof (steady_tail _ _ _ St) as St1.
  destruct St as [_ F]. inversion F as [| ? ? Hns _]; subst.
  unfold choose.
  replace (Z.land (Int64.to_int64 (sequence self + 1)) (seqStep self))
    with (if sequence self =? 4095 then 0 else sequence self + 1)
    by (rewrite Hs; symmetry; apply land_4095_succ; assumption).
  assert (Fin : forall now seq c,
             0 <= now < 2 ^ 41 -> 0 <= seq <= 4095 -> steady now c ->
             key self < now * 2 ^ 22 + nodeId self * 2 ^ 10 + seq ->
             Some (Z.lor (Z.lor (Int64.shl now (timeStep self))
                                (Int64.shl (nodeId self) (nodeStep self))) seq,
                   mkNode seq (epochBits self) (nodeIdBits self) (seqIdBits self)
                          (seqStep self) (timeStep self) (nodeStep self) now
                          (nodeId self), c)
             = Some (id, self', clock') ->
             id = key self' /\ key self < key self' /\
             ready self' /\ nodeId self' = nodeId self /\ steady (time self') clock').
  { intros now seq c Hnow Hsq Hc Hkey [= <- <- <-].
    rewrite Ht, Hn, fields_sum by assumption.
    unfold key, ready, configured. cbn.
    repeat split; try assumption; try lia; apply Hc. }
  destruct (Z.eqb_spec (millis ns) (time self)) as [E | NE].
  - destruct (Z.eqb_spec (sequence self) 4095) as [E4 | NE4].
    + change (0 =? 0) with true. cbv iota.
      destruct (wait_next _ _ _) as [[now' c] |] eqn:W; [| discriminate].
      apply wait_next_steady in W as [[Hlt Hle] Hc]; [| assumption | lia].
      cbv beta iota zeta. apply Fin; try assumption; try lia. unfold key. lia.
    + destruct (Z.eqb_spec (sequence self + 1) 0); [lia |].
      cbv beta iota zeta. apply Fin; try assumption; try lia. unfold key. lia.
  - cbv beta iota zeta. apply Fin; try assumption; try lia. unfold key. nia.
Qed.

Lemma NextN_increasing n : forall self clock ids self' clock',
  ready self -> nodeId self mod 4 = 0 -> steady (time self) clock ->
  NextN n self clock = Some (ids, self', clock') ->
  StronglySorted Z.lt ids /\ Forall (fun id => key self < id) ids.
Proof.
  induction n as [| n IH]; intros self clock ids self' clock' Hr H4 St; simpl.
  - intros [= <- _ _]. split; constructor.
  - destruct (Next self clock) as [[[id s1] c1] |] eqn:N1; [| discriminate].
    destruct (NextN n s1 c1) as [[[ids1 s2] c2] |] eqn:N2; [| discriminate].
    intros [= <- _ _].
    apply Next_key_increases in N1 as (-> & Hk & Hr1 & En & St1); try assumption.
    apply IH in N2 as [Sd Fa]; try assumption; [| congruence].
    split.
    + constructor; assumption.
    + constructor; [assumption |].
      rewrite Forall_forall in *. intros x Hx. specialize (Fa x Hx). lia.
Qed.

(** X15: the interlock of clock and sequence is sound: with a node id
    whose two low bits are clear, so that it stays out of the sequence bits,
    the identifiers of any number of calls in a row strictly increase, hence
    differ, on a clock that never goes back. *)
Lemma Next_increasing_without_overlap shard n clock ids self' clock' :
  0 <= shard < 1024 -> shard mod 4 = 0 -> steady 0 clock ->
  NextN n (NewSnowflakeNode shard) clock = Some (ids, self', clock') ->
  StronglySorted Z.lt ids /\ NoDup ids.
Proof.
  intros Hs H4 St HN.
  assert (E : nodeId (NewSnowflakeNode shard) = shard).
  { cbn. apply to_int64_small. unfold Int64.in_range. lia. }
  apply NextN_increasing in HN as [Sd _]; try assumption.
  - split; [assumption |]. clear - Sd.
    induction Sd as [| a l Sd IH Fa]; constructor; [| assumption].
    intros Hin. rewrite Forall_forall in Fa. specialize (Fa a Hin). lia.
  - split; [apply NewSnowflakeNode_configured |]. rewrite E. cbn. lia.
  - rewrite E. assumption.
Qed.

(** ** Decimal strings *)

Import strconv.

Lemma digit_cases d : 0 <= d < 10 ->
  d = 0 \/ d = 1 \/ d = 2 \/ d = 3 \/ d = 4 \/ d = 5 \/ d = 6 \/ d = 7 \/ d = 8 \/ d = 9.
Proof. lia. Qed.

Ltac each_digit d H :=
  apply digit_cases in H;
  repeat (destruct H as [H | H]; [subst d | ]); [.. | subst d].

Lemma digit_value_digit_char d :
  0 <= d < 10 -> digit_value (digit_char d) = Some d.
Proof. intros H. each_digit d H; reflexivity. Qed.

Lemma digit_char_not_sign d :
  0 <= d < 10 ->
  Ascii.eqb (digit_char d) "+" = false /\ Ascii.eqb (digit_char d) "-" = false.
Proof. intros H. each_digit d H; split; reflexivity. Qed.

Lemma ParseUint_loop_cons c rest n :
  ParseUint_loop (String c rest) n =
  match digit_value c with
  | None => (0, Some ErrSyntax)
  | Some d =>
    if base <=? d then (0, Some ErrSyntax)
    else if maxUint64 / 10 + 1 <=? n then (maxUint64, Some ErrRange)
    else
      let n := Int64.to_uint64 (n * base) in
      let n1 := Int64.to_uint64 (n + d) in
      if (n1 <? n) || (maxUint64 <? n1) then (maxUint64, Some ErrRange)
      else ParseUint_loop rest n1
  end.
Proof. reflexivity. Qed.

(** Reading the last digit of [u] after the digits of [u / 10]. *)
Lemma ParseUint_loop_digit u acc :
  0 <= u < 2 ^ 64 ->
  ParseUint_loop (String (digit_char (u mod 10)) acc) (u / 10) = ParseUint_loop acc u.
Proof.
  intros Hu. rewrite ParseUint_loop_cons.
  pose proof (Z.mod_pos_bound u 10 ltac:(lia)) as Hd.
  rewrite digit_value_digit_char by assumption.
  unfold base, maxUint64, Int64.to_uint64.
  pose proof (Z.div_mod u 10 ltac:(lia)) as E.
  destruct (Z.leb_spec 10 (u mod 10)); [lia |].
  destruct (Z.leb_spec ((2 ^ 64 - 1) / 10 + 1) (u / 10)) as [Hc |].
  { change ((2 ^ 64 - 1) / 10 + 1) with 1844674407370955162 in Hc. lia. }
  cbv zeta.
  rewrite (Z.mod_small (u / 10 * 10)) by lia.
  replace (u / 10 * 10 + u mod 10) with u by lia.
  rewrite (Z.mod_small u) by lia.
  destruct (Z.ltb_spec u (u / 10 * 10)); [lia |].
  destruct (Z.ltb_spec (2 ^ 64 - 1) u); [lia |].
  reflexivity.
Qed.

Lemma ParseUint_loop_formatBits fuel : forall u acc,
  0 <= u < 2 ^ 64 -> u < 10 ^ Z.of_nat fuel ->
  ParseUint_loop (formatBits fuel u acc) 0 = ParseUint_loop acc u.
Proof.
  induction fuel as [| fuel IH]; intros u acc Hu Hf.
  - simpl in *. replace u with 0 by lia. reflexivity.
  - cbn [formatBits]. destruct (Z.ltb_spec u 10) as [Hs | Hs].
    + rewrite <- (ParseUint_loop_digit u acc) by lia.
      rewrite (Z.div_small u 10) by lia. reflexivity.
    + rewrite IH.
      * apply ParseUint_loop_digit. lia.
      * split; [apply Z.div_pos; lia |].
        apply Z.div_lt_upper_bound; lia.
      * apply Z.div_lt_upper_bound; [lia |].
        rewrite Nat2Z.inj_succ, Z.pow_succ_r in Hf by lia. lia.
Qed.

Lemma formatBits_head fuel : forall u acc,
  exists d rest, 0 <= d < 10 /\ formatBits (S fuel) u acc = String (digit_char d) rest.
Proof.
  induction fuel as [| fuel IH]; intros u acc.
  - cbn [formatBits]. exists (u mod 10), acc.
    split; [apply Z.mod_pos_bound; lia |]. destruct (u <? 10); reflexivity.
  - change (formatBits (S (S fuel)) u acc) with
      (let acc' := String (digit_char (u mod 10)) acc in
       if u <? 10 then acc' else formatBits (S fuel) (u / 10) acc').
    cbv zeta. destruct (u <? 10).
    + exists (u mod 10), acc. split; [apply Z.mod_pos_bound; lia | reflexivity].
    + apply IH.
Qed.

Lemma ParseUint_formatBits u :
  0 <= u < 2 ^ 64 -> ParseUint (formatBits 20 u EmptyString) = (u, None).
Proof.
  intros Hu. destruct (formatBits_head 19 u EmptyString) as (d & rest & Hd & E).
  unfold ParseUint. rewrite E, <- E.
  rewrite ParseUint_loop_formatBits; [reflexivity | lia |].
  change (10 ^ Z.of_nat 20) with 100000000000000000000. lia.
Qed.

(** Parsing what [FormatInt] prints gives the number back, for every [int64]. *)
Lemma ParseInt_FormatInt v :
  Int64.in_range v -> ParseInt (FormatInt v) = (v, None).
Proof.
  unfold Int64.in_range. intros Hv. unfold FormatInt.
  destruct (Z.ltb_spec v 0) as [Hneg | Hpos].
  - assert (U : Int64.to_uint64 (- Int64.to_uint64 v) = - v).
    { unfold Int64.to_uint64.
      replace (v mod 2 ^ 64) with (v + 2 ^ 64).
      - replace (- (v + 2 ^ 64)) with (- v + (-1) * 2 ^ 64) by lia.
        rewrite Z.mod_add by lia. apply Z.mod_small. lia.
      - symmetry. replace v with (v + 2 ^ 64 + (-1) * 2 ^ 64) at 1 by lia.
        rewrite Z.mod_add by lia. apply Z.mod_small. lia. }
    rewrite U. unfold ParseInt.
    change (Ascii.eqb "-" "+") with false. change (Ascii.eqb "-" "-") with true.
    cbv iota beta.
    rewrite ParseUint_formatBits by lia.
    cbn [negb andb].
    destruct (Z.ltb_spec (2 ^ 63) (- v)); [lia |].
    f_equal. unfold Int64.to_int64.
    destruct (Z.eq_dec v (- 2 ^ 63)) as [-> | Hne].
    + reflexivity.
    + rewrite (Z.mod_small (- v + 2 ^ 63)) by lia.
      replace (- (- v + 2 ^ 63 - 2 ^ 63) + 2 ^ 63) with (v + 2 ^ 63) by lia.
      rewrite Z.mod_small by lia. lia.
  - assert (U : Int64.to_uint64 v = v) by (apply Z.mod_small; lia).
    rewrite U.
    destruct (formatBits_head 19 v EmptyString) as (d & rest & Hd & E).
    pose proof (ParseUint_formatBits v ltac:(lia)) as P.
    rewrite E in *. unfold ParseInt.
    destruct (digit_char_not_sign d Hd) as [-> ->].
    rewrite P. cbn [negb andb].
    destruct (Z.leb_spec (2 ^ 63) v); [lia |].
    f_equal. apply to_int64_small. unfold Int64.in_range. lia.
Qed.

(** ** Rounding to [float64] *)

Lemma digits2_pos_size m : digits2_pos m = Pos.size m.
Proof. induction m; simpl; congruence. Qed.

Lemma digits2_pos_bounds m :
  2 ^ (Zpos (digits2_pos m) - 1) <= Zpos m < 2 ^ Zpos (digits2_pos m).
Proof.
  rewrite digits2_pos_size.
  induction m as [m IH | m IH |]; cbn [Pos.size].
  - rewrite Pos2Z.inj_succ.
    replace (Z.succ (Zpos (Pos.size m)) - 1) with (Z.succ (Zpos (Pos.size m) - 1)) by lia.
    rewrite !Z.pow_succ_r by lia. lia.
  - rewrite Pos2Z.inj_succ.
    replace (Z.succ (Zpos (Pos.size m)) - 1) with (Z.succ (Zpos (Pos.size m) - 1)) by lia.
    rewrite !Z.pow_succ_r by lia. lia.
  - simpl. lia.
Qed.

Lemma iter_xO_value m p : Zpos (Pos.iter xO m p) = Zpos m * 2 ^ Zpos p.
Proof.
  induction p as [| p IH] using Pos.peano_ind.
  - simpl. lia.
  - rewrite Pos.iter_succ, Pos2Z.inj_succ, Z.pow_succ_r by lia.
    change (Zpos (Pos.iter xO m p)~0) with (2 * Zpos (Pos.iter xO m p)). lia.
Qed.

Lemma iter_xO_digits m p :
  Zpos (digits2_pos (Pos.iter xO m p)) = Zpos (digits2_pos m) + Zpos p.
Proof.
  induction p as [| p IH] using Pos.peano_ind.
  - simpl. lia.
  - rewrite Pos.iter_succ. cbn [digits2_pos]. rewrite Pos2Z.inj_succ, IH. lia.
Qed.

Lemma binary_round_aux_exact s mz ez :
  Zpos (digits2_pos mz) = 53 -> -1074 <= ez <= 971 ->
  binary_round_aux 53 1024 s (Zpos mz) ez loc_Exact = S754_finite s mz ez.
Proof.
  intros Hd He.
  assert (F : Z.sub (fexp 53 1024 (Z.add (Zdigits2 (Zpos mz)) ez)) ez = 0).
  { unfold fexp, emin, Zdigits2. rewrite Hd. lia. }
  unfold binary_round_aux, shr_fexp. rewrite F.
  cbn [shr shr_record_of_loc shr_m loc_of_shr_record round_nearest_even].
  rewrite F. cbn [shr shr_record_of_loc shr_m].
  destruct (Z.leb_spec ez (1024 - 53)); [reflexivity | lia].
Qed.

Lemma float64_of_pos s m :
  Zpos m < 2 ^ 53 ->
  exists mz ez,
    binary_round 53 1024 s m 0 = S754_finite s mz ez /\
    -52 <= ez <= 0 /\ Zpos mz = Zpos m * 2 ^ (- ez).
Proof.
  intros Hm. pose proof (digits2_pos_bounds m) as Hb.
  assert (Hd : Zpos (digits2_pos m) <= 53).
  { destruct (Z.le_gt_cases (Zpos (digits2_pos m)) 53) as [|Hgt]; [assumption |].
    assert (2 ^ 53 <= 2 ^ (Zpos (digits2_pos m) - 1)) by (apply Z.pow_le_mono_r; lia).
    lia. }
  unfold binary_round.
  assert (F : fexp 53 1024 (Z.add (Zpos (digits2_pos m)) 0) = Zpos (digits2_pos m) - 53).
  { unfold fexp, emin. lia. }
  rewrite F. unfold shl_align.
  destruct (Z.sub (Zpos (digits2_pos m) - 53) 0) as [| p | p] eqn:E; try lia.
  - exists m, 0. split; [| split; [lia | simpl; lia]].
    apply binary_round_aux_exact; lia.
  - exists (Pos.iter xO m p), (Zpos (digits2_pos m) - 53).
    split; [| split; [lia |]].
    + apply binary_round_aux_exact; [| lia]. rewrite iter_xO_digits. lia.
    + rewrite iter_xO_value. f_equal. f_equal. lia.
Qed.

Lemma float64_to_int_range f : Int64.in_range (float64_to_int f).
Proof.
  unfold Int64.in_range, float64_to_int.
  destruct f as [s | s | | s m e]; try lia.
  destruct (Z.leb_spec (- 2 ^ 63) (Z.quot (cond_Zopp s (Zpos m) * 2 ^ Z.max e 0)
                                          (2 ^ Z.max (- e) 0)));
    cbn [andb]; [| lia].
  destruct (Z.ltb_spec (Z.quot (cond_Zopp s (Zpos m) * 2 ^ Z.max e 0)
                               (2 ^ Z.max (- e) 0)) (2 ^ 63)); lia.
Qed.

(** An integer below [2 ^ 53] in absolute value is a [float64]. *)
Lemma float64_of_Z_exact n :
  - 2 ^ 53 < n < 2 ^ 53 -> float64_to_int (float64_of_Z n) = n.
Proof.
  intros Hn. unfold float64_of_Z, binary_normalize.
  destruct n as [| m | m]; [reflexivity | |].
  - destruct (float64_of_pos false m ltac:(lia)) as (mz & ez & -> & He & Hm).
    unfold float64_to_int. cbn [cond_Zopp].
    rewrite Z.max_r, Z.max_l by lia. rewrite Hm, Z.mul_1_r, Z.quot_mul.
    + destruct (Z.leb_spec (- 2 ^ 63) (Zpos m)); [| lia].
      destruct (Z.ltb_spec (Zpos m) (2 ^ 63)); [reflexivity | lia].
    + apply Z.pow_nonzero; lia.
  - destruct (float64_of_pos true m ltac:(lia)) as (mz & ez & -> & He & Hm).
    unfold float64_to_int. cbn [cond_Zopp].
    rewrite Z.max_r, Z.max_l by lia.
    replace (- Zpos mz * 2 ^ 0) with (Zneg m * 2 ^ (- ez)) by lia.
    rewrite Z.quot_mul.
    + destruct (Z.leb_spec (- 2 ^ 63) (Zneg m)); [| lia].
      destruct (Z.ltb_spec (Zneg m) (2 ^ 63)); [reflexivity | lia].
    + apply Z.pow_nonzero; lia.
Qed.

(** [Z.quot] discards the fraction: the quotient is the integer next to
    [num / den] on the side of zero. *)
Lemma quot_truncates num den :
  0 < den ->
  Z.abs (Z.quot num den) * den <= Z.abs num < (Z.abs (Z.quot num den) + 1) * den /\
  0 <= Z.quot num den * num.
Proof.
  intros Hd. pose proof (Z.quot_rem' num den) as E.
  pose proof (Z.rem_bound_abs num den ltac:(lia)) as B.
  destruct (Z.le_gt_cases 0 num) as [Hn | Hn].
  - pose proof (Z.rem_bound_pos num den Hn Hd).
    pose proof (Z.quot_pos num den Hn Hd). nia.
  - clear E B. replace num with (- (- num)) by lia.
    set (a := - num) in *. assert (Ha : 0 <= a) by lia.
    rewrite Z.quot_opp_l by lia.
    pose proof (Z.quot_rem' a den) as E.
    pose proof (Z.rem_bound_pos a den Ha Hd).
    pose proof (Z.quot_pos a den Ha Hd). nia.
Qed.

(** ** The semantic codec: decoding *)

Lemma decode_bits (id : Z) (i : Z) :
  0 <= i ->
  let s := NewSemanticSnowflake id in
  Z.testbit (ID s) i = (i <? 41) && Z.testbit id (i + 23) /\
  Z.testbit (NodeID s) i = (i <? 13) && Z.testbit id (i + 10) /\
  Z.testbit (TypeID s) i = (i <? 10) && Z.testbit id i /\
  Z.testbit (GlobalTypeID s) i = (i <? 23) && Z.testbit id i.
Proof.
  intros Hi. cbv zeta. rewrite decode_fields. cbn [ID NodeID TypeID GlobalTypeID].
  repeat split.
  - rewrite Z.div_pow2_bits, Z.testbit_mod_pow2 by lia.
    destruct (Z.ltb_spec (i + 23) 64), (Z.ltb_spec i 41); try lia; reflexivity.
  - rewrite Z.testbit_mod_pow2, Z.div_pow2_bits by lia. reflexivity.
  - rewrite Z.testbit_mod_pow2 by lia. reflexivity.
  - rewrite Z.testbit_mod_pow2 by lia. reflexivity.
Qed.

(** C5: for every 64-bit identifier, [NewSemanticSnowflake] returns a record
    (there is no error path) whose object id is the identifier, read as
    unsigned, shifted right by 23, whose node id is [(id << 41) >> 51], whose
    type id is [id & 0x3FF] and whose global type id is [id & 0x7FFFFF]: bit
    by bit, the 41 bits from offset 23, the 13 bits from offset 10, the low
    10 bits and the low 23 bits of the identifier. *)
Theorem NewSemanticSnowflake_extracts (id : Snowflake) :
  Int64.in_range id ->
  let u := Int64.to_uint64 id in
  let s := NewSemanticSnowflake id in
  s = {| ID := Z.shiftr u 23;
         NodeID := Z.shiftr (Z.shiftl u 41 mod 2 ^ 64) 51;
         TypeID := Z.land u 1023;
         GlobalTypeID := Z.land u 8388607 |} /\
  (0 <= ID s < 2 ^ 41 /\ 0 <= NodeID s < 2 ^ 13 /\
   0 <= TypeID s < 2 ^ 10 /\ 0 <= GlobalTypeID s < 2 ^ 23) /\
  forall i, 0 <= i ->
    Z.testbit (ID s) i = (i <? 41) && Z.testbit id (i + 23) /\
    Z.testbit (NodeID s) i = (i <? 13) && Z.testbit id (i + 10) /\
    Z.testbit (TypeID s) i = (i <? 10) && Z.testbit id i /\
    Z.testbit (GlobalTypeID s) i = (i <? 23) && Z.testbit id i.
Proof.
  intros _. cbv zeta. split; [| split].
  - rewrite decode_fields. unfold Int64.to_uint64. f_equal.
    + rewrite Z.shiftr_div_pow2 by lia. reflexivity.
    + bits.
    + change 1023 with (Z.ones 10). bits.
    + change 8388607 with (Z.ones 23). bits.
  - rewrite decode_fields. cbn [ID NodeID TypeID GlobalTypeID].
    pose proof (Z.mod_pos_bound id (2 ^ 64) ltac:(lia)).
    pose proof (Z.mod_pos_bound (id / 2 ^ 10) (2 ^ 13) ltac:(lia)).
    pose proof (Z.mod_pos_bound id (2 ^ 10) ltac:(lia)).
    pose proof (Z.mod_pos_bound id (2 ^ 23) ltac:(lia)).
    repeat split; try lia.
    + apply Z.div_pos; lia.
    + apply Z.div_lt_upper_bound; lia.
  - intros i Hi. apply decode_bits, Hi.
Qed.

Lemma NewSemanticSnowflake_extracts_witness :
  Int64.in_range 2856524282194824821 /\
  NewSemanticSnowflake 2856524282194824821 = mkSemantic 340524230265 3 629 3701.
Proof.
  assert (R : Int64.in_range 2856524282194824821) by (unfold Int64.in_range; lia).
  split; [exact R |].
  destruct (NewSemanticSnowflake_extracts 2856524282194824821 R) as [E _].
  rewrite E. reflexivity.
Defined.

(** ** The semantic codec: round trip and clamp *)

(** C3, as the code has it: for every triple whose object id fits 41 bits
    and whose node and type ids are non-negative, decoding the encoded
    triple gives the object id back, with the node id reduced modulo 8192
    and the type id reduced modulo 1024; when the node id is below 8192 and
    the type id below 1024 the three fields come back unchanged. *)
Theorem semantic_roundtrip (o n t g : Z) :
  0 <= o < 2 ^ 41 -> 0 <= n < 2 ^ 63 -> 0 <= t < 2 ^ 63 ->
  let s' := NewSemanticSnowflake (ToSnowflake (mkSemantic o n t g)) in
  triple s' = (o, n mod 8192, t mod 1024) /\
  GlobalTypeID s' = (n mod 8192) * 1024 + t mod 1024 /\
  (n < 8192 -> t < 1024 -> triple s' = (o, n, t)).
Proof.
  intros Ho Hn Ht. cbv zeta.
  rewrite (ToSnowflake_clamped o n t g g) by lia.
  pose proof (Z.mod_pos_bound n 8192 ltac:(lia)).
  pose proof (Z.mod_pos_bound t 1024 ltac:(lia)).
  rewrite roundtrip_in_range by lia. unfold triple. cbn [ID NodeID TypeID GlobalTypeID].
  repeat split.
  intros Hn' Ht'. rewrite !Z.mod_small by lia. reflexivity.
Qed.

Lemma semantic_roundtrip_witness :
  triple (NewSemanticSnowflake (ToSnowflake (mkSemantic 340524230265 50 100 0)))
  = (340524230265, 50, 100) /\
  triple (NewSemanticSnowflake (ToSnowflake (mkSemantic 340524230265 8242 1124 0)))
  = (340524230265, 8242 mod 8192, 1124 mod 1024).
Proof.
  split.
  - apply (semantic_roundtrip 340524230265 50 100 0); lia.
  - apply (semantic_roundtrip 340524230265 8242 1124 0); lia.
Defined.

(** C3 as stated fails on a negative node id, which is out of range too:
    the sign bits of [-1 % 8192 = -1] cover the object id, so neither the
    object id nor the reduced node id comes back. *)
Lemma roundtrip_negative_node_fails :
  let s := mkSemantic 0 (-1) 0 0 in
  let s' := NewSemanticSnowflake (ToSnowflake s) in
  (0 <= ID s < 2 ^ 41 /\ Int64.in_range (NodeID s) /\ 0 <= TypeID s < 1024) /\
  GetNodeID s = -1 /\
  triple s' = (2199023255551, 8191, 0) /\
  ID s' <> ID s /\ NodeID s' <> GetNodeID s.
Proof.
  cbv zeta. unfold Int64.in_range. cbn [ID NodeID TypeID].
  repeat split; try lia; try reflexivity; vm_compute; discriminate.
Qed.

(** C6: [ToSnowflake] reduces the node id modulo 8192 and the type id modulo
    1024 and never fails: for every object id the triple with node id
    [8192 + 50] and type id [1024 + 100] encodes as the triple with node id
    50 and type id 100; every triple encodes as
    [(ID << 23) | ((NodeID % 8192) << 10) | (TypeID % 1024)], which is the
    encoding of the triple of its reduced ids, [%] being Go's remainder; and
    on non-negative ids that remainder is the modulus. *)
Theorem ToSnowflake_modulo_clamp (o n t g g' : Z) :
  ToSnowflake (mkSemantic o (8192 + 50) (1024 + 100) g) =
    ToSnowflake (mkSemantic o 50 100 g') /\
  ToSnowflake (mkSemantic o n t g) =
    Z.lor (Z.lor (Int64.shl o 23) (Int64.shl (Int64.rem n 8192) 10))
          (Int64.rem t 1024) /\
  ToSnowflake (mkSemantic o n t g) =
    ToSnowflake (mkSemantic o (Int64.rem n 8192) (Int64.rem t 1024) g') /\
  (0 <= n -> 0 <= t ->
   ToSnowflake (mkSemantic o n t g) =
     ToSnowflake (mkSemantic o (n mod 8192) (t mod 1024) g')).
Proof.
  split; [| split; [| split]].
  - apply (ToSnowflake_reduced o (8192 + 50) (1024 + 100) g g').
  - unfold ToSnowflake, GetNodeID, GetTypeID. cbn [ID NodeID TypeID].
    pose proof (rem_abs_bound n 8192 ltac:(lia)).
    pose proof (rem_abs_bound t 1024 ltac:(lia)).
    rewrite !to_int64_small by (unfold Int64.in_range; lia). reflexivity.
  - apply ToSnowflake_reduced.
  - intros Hn Ht. apply ToSnowflake_clamped; assumption.
Qed.

Lemma ToSnowflake_modulo_clamp_witness :
  ToSnowflake (mkSemantic 340524230265 20000 5000 0) =
  ToSnowflake (mkSemantic 340524230265 (20000 mod 8192) (5000 mod 1024) 7).
Proof.
  apply (ToSnowflake_modulo_clamp 340524230265 20000 5000 0 7); lia.
Defined.

(** ** Non-negative identifiers *)

(** C4, as the code has it: the identifiers of any number of calls of [Next]
    on a generator made with a node id below 1024 are non-negative while the
    clock's milliseconds fit 41 bits, and [ToSnowflake] gives a non-negative
    identifier for a triple whose object id fits 40 bits, with a node id
    below 8192 and a type id below 1024. *)
Theorem identifiers_nonnegative :
  (forall shard n clock ids self' clock',
     0 <= shard < 1024 ->
     (forall ns, In ns clock -> 0 <= millis ns < 2 ^ 41) ->
     NextN n (NewSnowflakeNode shard) clock = Some (ids, self', clock') ->
     Forall (fun id => 0 <= id < 2 ^ 63) ids) /\
  (forall o n t g,
     0 <= o < 2 ^ 40 -> 0 <= n < 8192 -> 0 <= t < 1024 ->
     0 <= ToSnowflake (mkSemantic o n t g) < 2 ^ 63).
Proof.
  split.
  - intros shard n clock ids self' clock' Hs Hclock HN.
    eapply NextN_nonneg; [apply NewSnowflakeNode_configured | | exact Hclock | exact HN].
    cbn [NewSnowflakeNode nodeId]. rewrite to_int64_small; [lia |].
    unfold Int64.in_range. lia.
  - intros. apply ToSnowflake_nonneg_40; assumption.
Qed.

Lemma identifiers_nonnegative_witness :
  Forall (fun id => 0 <= id < 2 ^ 63) [20972544; 20972545; 25166848] /\
  0 <= ToSnowflake (mkSemantic 340524230265 50 100 0) < 2 ^ 63.
Proof.
  destruct identifiers_nonnegative as [G S]. split.
  - apply (G 1 3%nat [5000000; 5999999; 6000000]
             [20972544; 20972545; 25166848]
             (mkNode 0 41 10 12 4095 22 10 6 1) []).
    + lia.
    + intros ns [<- | [<- | [<- | []]]]; vm_compute; split; congruence.
    + reflexivity.
  - apply S; lia.
Defined.

(** C4 as stated fails: an object id of 41 bits whose top bit is set reaches
    the sign bit. *)
Lemma ToSnowflake_sets_sign_bit :
  0 <= 2 ^ 40 < 2 ^ 41 /\
  ToSnowflake (mkSemantic (2 ^ 40) 0 0 0) = - 2 ^ 63 /\
  ToSnowflake (mkSemantic (2 ^ 40) 0 0 0) < 0.
Proof. repeat split; try lia; vm_compute; reflexivity. Qed.

(** ** The layout of generated identifiers *)

(** C1 at the failing input: a generator made with node id 1 whose first
    call reads 182066400000 ms since the epoch returns
    [(now << 22) | (1 << 10) | 0].  The node id sits at bit 10, the value of
    [nodeStep], inside the 12 bits of the sequence, and not at bit 12. *)
Theorem Next_places_node_at_bit_10 :
  let now := 182066400000 in
  exists self',
    Next (NewSnowflakeNode 1) [now * 1000000]
      = Some (763641829785601024, self', []) /\
    time self' = now /\ nodeId self' = 1 /\ sequence self' = 0 /\
    763641829785601024 = Z.lor (Z.lor (Z.shiftl now 22) (Z.shiftl 1 10)) 0 /\
    763641829785601024 <> Z.lor (Z.lor (Z.shiftl now 22) (Z.shiftl 1 12)) 0.
Proof.
  cbv zeta. eexists. split; [vm_compute; reflexivity |].
  repeat split; vm_compute; discriminate.
Qed.

(** C2 at the failing input: 1025 calls within one millisecond on a
    generator made with node id 1.  The 1025th identifier, of sequence 1024,
    equals the first, of sequence 0, and is smaller than the 1024th. *)
Theorem Next_repeats_identifier :
  let clock := repeat 182066400000000000 1025 in
  let ids := identifiers 1025 (NewSnowflakeNode 1) clock in
  steady 0 clock /\
  List.length ids = 1025%nat /\
  List.nth 0 ids 0 = 763641829785601024 /\
  List.nth 1023 ids 0 = 763641829785602047 /\
  List.nth 1024 ids 0 = 763641829785601024 /\
  List.nth 1024 ids 0 < List.nth 1023 ids 0 /\
  ~ NoDup ids.
Proof.
  intros clock ids.
  assert (St : steady 0 clock).
  { unfold clock. generalize 1025%nat. intros n. split.
    - induction n as [| n IH]; simpl; constructor; [assumption |].
      apply Forall_forall. intros x Hx. apply repeat_spec in Hx. subst x. lia.
    - apply Forall_forall. intros x Hx. apply repeat_spec in Hx. subst x.
      vm_compute. split; [intros C; discriminate C | reflexivity]. }
  assert (E0 : List.nth 0 ids 0 = 763641829785601024) by (vm_compute; reflexivity).
  assert (E1 : List.nth 1024 ids 0 = 763641829785601024) by (vm_compute; reflexivity).
  assert (E2 : List.nth 1023 ids 0 = 763641829785602047) by (vm_compute; reflexivity).
  assert (L : List.length ids = 1025%nat) by (vm_compute; reflexivity).
  clearbody ids clock.
  split; [exact St |].
  split; [exact L |]. split; [exact E0 |]. split; [exact E2 |].
  split; [exact E1 |]. split.
  - rewrite E1, E2. lia.
  - intros ND.
    assert (H0 : (0 < List.length ids)%nat) by (rewrite L; lia).
    assert (H1 : (1024 < List.length ids)%nat) by (rewrite L; lia).
    assert (E : List.nth 0 ids 0 = List.nth 1024 ids 0) by congruence.
    pose proof (proj1 (NoDup_nth ids 0) ND 0%nat 1024%nat H0 H1 E).
    discriminate.
Qed.

(** ** The wire form *)

(** C7: a non-negative [int64] printed by [NewNetSnowflake] is read back
    unchanged by [ToID] and by [FromString]. *)
Theorem wire_roundtrip (v : Z) :
  0 <= v < 2 ^ 63 ->
  ToID (NewNetSnowflake v) = v /\ FromString (NewNetSnowflake v) = v.
Proof.
  intros Hv. unfold ToID, FromString, NewNetSnowflake.
  rewrite ParseInt_FormatInt by (unfold Int64.in_range; lia). auto.
Qed.

Lemma wire_roundtrip_witness :
  ToID (NewNetSnowflake 2856524282194824821) = 2856524282194824821 /\
  FromString (NewNetSnowflake 2856524282194824821) = 2856524282194824821.
Proof. apply (wire_roundtrip 2856524282194824821). lia. Defined.

Lemma ParseInt_in_range s v : ParseInt s = (v, None) -> Int64.in_range v.
Proof.
  unfold ParseInt. destruct s as [| c0 rest]; [discriminate |].
  destruct (if Ascii.eqb c0 "+" then (false, rest)
            else if Ascii.eqb c0 "-" then (true, rest)
            else (false, String c0 rest)) as [neg s1].
  destruct (ParseUint s1) as [un [[|] |]]; try discriminate.
  - destruct (negb neg && (2 ^ 63 <=? un)); [discriminate |].
    destruct (neg && (2 ^ 63 <? un)); [discriminate |].
    intros [= <-]. destruct neg; apply to_int64_range.
  - destruct (negb neg && (2 ^ 63 <=? un)); [discriminate |].
    destruct (neg && (2 ^ 63 <? un)); [discriminate |].
    intros [= <-]. destruct neg; apply to_int64_range.
Qed.

(** C8: ["not-a-number"] is read as the negative sentinel by [FromString]
    and by [ToID]; [Valid] rejects ["-5"] and accepts ["12345"]; and [Valid]
    holds exactly of the strings that [ParseInt] reads without error as a
    non-negative 64-bit integer. *)
Theorem invalid_wire_form :
  FromString "not-a-number"%string = -1 /\ ToID "not-a-number"%string = -1 /\
  Valid "-5"%string = false /\ Valid "12345"%string = true /\
  forall s, Valid s = true <->
            exists v, ParseInt s = (v, None) /\ 0 <= v < 2 ^ 63.
Proof.
  do 4 (split; [vm_compute; reflexivity |]).
  intros s. split.
  - unfold Valid. destruct (ParseInt s) as [v [e |]] eqn:P; [discriminate |].
    destruct (Z.ltb_spec v 0); [discriminate |]. intros _.
    exists v. apply ParseInt_in_range in P. unfold Int64.in_range in P.
    split; [reflexivity | lia].
  - intros (v & P & Hv). unfold Valid. rewrite P.
    destruct (Z.ltb_spec v 0); [lia | reflexivity].
Qed.

(** C10: whenever [ParseInt] reads a string without error, [FromString] and
    [ToID] return the number read, negative or not: [FromString "-5"] is
    [-5], and [FromString "-1"], a number read without error, is the very
    value that [FromString] returns for a string that cannot be read. *)
Theorem FromString_returns_parsed_value (s : string) (v : Z) :
  ParseInt s = (v, None) ->
  (FromString s = v /\ ToID s = v) /\
  FromString "-5"%string = -5 /\
  (ParseInt "-1"%string = (-1, None) /\
   snd (ParseInt "not-a-number"%string) = Some ErrSyntax /\
   FromString "-1"%string = FromString "not-a-number"%string).
Proof.
  intros P. split.
  - unfold FromString, ToID. rewrite P. split; reflexivity.
  - repeat split; vm_compute; reflexivity.
Qed.

Lemma FromString_returns_parsed_value_witness :
  ParseInt "-5"%string = (-5, None) /\ FromString "-5"%string = -5 /\ ToID "-5"%string = -5.
Proof.
  assert (P : ParseInt "-5"%string = (-5, None)) by reflexivity.
  split; [exact P |].
  destruct (FromString_returns_parsed_value "-5"%string (-5) P) as [R _]. exact R.
Defined.

(** ** The JSON adapter *)

(** C9, as the code has it: [MarshalJSON] gives the decimal string of the
    identifier between two quotes, a string that [ParseInt] reads back as
    the identifier.  [UnmarshalJSON] sets the receiver to the number read
    from a quoted decimal string; to the value itself for an [int] or an
    [int64]; and for a [float64] to the float with its fraction discarded.
    A JSON number reaches the switch as a [float64], so an unquoted integer
    is stored unchanged when it is below [2 ^ 53] in absolute value. *)
Theorem json_adapter :
  (forall sf, Int64.in_range sf ->
     MarshalJSON sf = ((quote ++ FormatInt sf ++ quote)%string, None) /\
     ParseInt (FormatInt sf) = (sf, None)) /\
  (forall v sf, Int64.in_range v ->
     UnmarshalJSON (json_string (FormatInt v)) sf = (v, None)) /\
  (forall v sf, Int64.in_range v ->
     UnmarshalJSON (inr (AnyInt v)) sf = (v, None) /\
     UnmarshalJSON (inr (AnyInt64 v)) sf = (v, None)) /\
  (forall n sf, - 2 ^ 53 < n < 2 ^ 53 ->
     UnmarshalJSON (json_number n) sf = (n, None)) /\
  (forall sign m e sf,
     let num := cond_Zopp sign (Zpos m) * 2 ^ Z.max e 0 in
     let den := 2 ^ Z.max (- e) 0 in
     - 2 ^ 63 * den <= num < 2 ^ 63 * den ->
     exists r,
       UnmarshalJSON (inr (AnyFloat64 (S754_finite sign m e))) sf = (r, None) /\
       Z.abs r * den <= Z.abs num < (Z.abs r + 1) * den /\
       0 <= r * num).
Proof.
  split; [| split; [| split; [| split]]].
  - intros sf Hsf. split; [reflexivity | apply ParseInt_FormatInt, Hsf].
  - intros v sf Hv. unfold UnmarshalJSON, json_string.
    rewrite ParseInt_FormatInt by assumption. reflexivity.
  - intros v sf Hv. unfold UnmarshalJSON.
    rewrite to_int64_small by assumption. split; reflexivity.
  - intros n sf Hn. unfold UnmarshalJSON, json_number.
    rewrite float64_of_Z_exact by assumption.
    rewrite to_int64_small; [reflexivity |]. unfold Int64.in_range. lia.
  - intros sign m e sf num den Hfit.
    assert (Hden : 0 < den) by (apply Z.pow_pos_nonneg; lia).
    destruct (quot_truncates num den Hden) as [Habs Hsign].
    exists (Z.quot num den). split; [| split; assumption].
    unfold UnmarshalJSON. rewrite to_int64_small by apply float64_to_int_range.
    unfold float64_to_int. fold num. fold den.
    assert (R : - 2 ^ 63 <= Z.quot num den < 2 ^ 63) by nia.
    destruct (Z.leb_spec (- 2 ^ 63) (Z.quot num den)); [| lia].
    destruct (Z.ltb_spec (Z.quot num den) (2 ^ 63)); [reflexivity | lia].
Qed.

Lemma json_adapter_witness :
  UnmarshalJSON (json_string (FormatInt 2856524282194824821)) 0
    = (2856524282194824821, None) /\
  UnmarshalJSON (json_number 12345) 0 = (12345, None) /\
  exists r,
    UnmarshalJSON (inr (AnyFloat64 (S754_finite true 15 (-1)))) 0 = (r, None) /\
    Z.abs r * 2 <= 15 < (Z.abs r + 1) * 2 /\ 0 <= r * -15.
Proof.
  pose proof json_adapter as J. destruct J as [M [S [I [N F]]]].
  split; [| split].
  - apply (S 2856524282194824821 0). unfold Int64.in_range. lia.
  - apply (N 12345 0). lia.
  - apply (F true 15%positive (-1) 0).
    vm_compute. split; [intros C; discriminate C | reflexivity].
Defined.

(** C9 as stated fails for an unquoted integer that is not a [float64]:
    [2 ^ 53 + 1] is stored as [2 ^ 53]. *)
Lemma UnmarshalJSON_rounds_large_integer :
  Int64.in_range 9007199254740993 /\
  UnmarshalJSON (json_number 9007199254740993) 0 = (9007199254740992, None) /\
  fst (UnmarshalJSON (json_number 9007199254740993) 0) <> 9007199254740993.
Proof.
  split; [unfold Int64.in_range; lia |].
  split; [vm_compute; reflexivity | vm_compute; discriminate].
Qed.

(** * Further properties of the code *)

Lemma in_range_shiftr z :
  Int64.in_range z <-> (Z.shiftr z 63 = 0 \/ Z.shiftr z 63 = -1).
Proof.
  unfold Int64.in_range. rewrite Z.shiftr_div_pow2 by lia.
  pose proof (Z.div_mod z (2 ^ 63) ltac:(lia)).
  pose proof (Z.mod_pos_bound z (2 ^ 63) ltac:(lia)). split; intros; lia.
Qed.

Lemma lor_in_range a b :
  Int64.in_range a -> Int64.in_range b -> Int64.in_range (Z.lor a b).
Proof.
  rewrite !in_range_shiftr, Z.shiftr_lor.
  intros [-> | ->] [-> | ->]; cbn; auto.
Qed.

Lemma ToSnowflake_in_range s : Int64.in_range (ToSnowflake s).
Proof.
  unfold ToSnowflake, Int64.shl, GetTypeID.
  repeat apply lor_in_range; apply to_int64_range.
Qed.

(** X1: encoding what [NewSemanticSnowflake] decoded gives the identifier
    back, for every [int64], negative ones included. *)
Theorem decode_encode_identity (flake : Snowflake) :
  Int64.in_range flake ->
  ToSnowflake (NewSemanticSnowflake flake) = flake.
Proof.
  intros Hf.
  assert (U : Int64.to_uint64 (ToSnowflake (NewSemanticSnowflake flake))
              = Int64.to_uint64 flake).
  { rewrite ToSnowflake_bits, decode_fields.
    unfold GetNodeID, GetTypeID. cbn [ID NodeID TypeID].
    pose proof (Z.mod_pos_bound (flake / 2 ^ 10) (2 ^ 13) ltac:(lia)).
    pose proof (Z.mod_pos_bound flake (2 ^ 10) ltac:(lia)).
    rewrite !rem_small by lia.
    rewrite !to_int64_small by (unfold Int64.in_range; lia).
    unfold Int64.to_uint64. bits.
    match goal with
    | |- context [Z.testbit (_ mod 2 ^ 64) ?i] =>
      rewrite Z.testbit_mod_pow2 by lia;
      destruct (Z.ltb_spec i 64); [cbn; btauto | lia]
    end. }
  rewrite <- (to_int64_small (ToSnowflake _)) by apply ToSnowflake_in_range.
  rewrite <- (to_int64_small flake) at 2 by assumption.
  unfold Int64.to_int64, Int64.to_uint64 in *.
  rewrite <- (Zplus_mod_idemp_l (ToSnowflake _)), U, Zplus_mod_idemp_l. reflexivity.
Qed.

Lemma decode_encode_identity_witness :
  ToSnowflake (NewSemanticSnowflake (- 2856524282194824821))
  = - 2856524282194824821.
Proof.
  apply (decode_encode_identity (- 2856524282194824821)).
  unfold Int64.in_range. lia.
Defined.

(** X2: the global type id of a decoded identifier is its node id times
    1024 plus its type id; and an identifier below [2 ^ 23], a class id,
    decodes to object id 0, node id [c / 1024], type id [c mod 1024] and
    itself as global type id. *)
Theorem GlobalTypeID_composite (flake : Snowflake) :
  let s := NewSemanticSnowflake flake in
  GlobalTypeID s = NodeID s * 1024 + TypeID s /\
  (0 <= flake < 2 ^ 23 ->
   s = mkSemantic 0 (flake / 1024) (flake mod 1024) flake).
Proof.
  cbv zeta. rewrite decode_fields. cbn [ID NodeID TypeID GlobalTypeID]. split.
  - change (2 ^ 23) with (2 ^ 10 * 2 ^ 13).
    rewrite Z.rem_mul_r by lia. lia.
  - intros Hc. f_equal.
    + rewrite (Z.mod_small flake (2 ^ 64)) by lia. apply Z.div_small. lia.
    + apply Z.mod_small. split; [apply Z.div_pos; lia |].
      apply Z.div_lt_upper_bound; lia.
    + apply Z.mod_small. lia.
Qed.

Lemma GlobalTypeID_composite_witness :
  NewSemanticSnowflake 51300 = mkSemantic 0 (51300 / 1024) (51300 mod 1024) 51300.
Proof. apply (GlobalTypeID_composite 51300). lia. Defined.

(** X4: [ToSnowflake] checks no object id: whatever the object id, what
    comes back on decoding is the object id modulo [2 ^ 41], with the
    non-negative node and type ids reduced modulo 8192 and 1024. *)
Theorem ToSnowflake_truncates_object_id (o n t g : Z) :
  0 <= n -> 0 <= t ->
  triple (NewSemanticSnowflake (ToSnowflake (mkSemantic o n t g)))
  = (o mod 2 ^ 41, n mod 8192, t mod 1024).
Proof.
  intros Hn Ht.
  assert (E : ToSnowflake (mkSemantic o n t g)
              = ToSnowflake (mkSemantic (o mod 2 ^ 41) (n mod 8192) (t mod 1024) g)).
  { rewrite (ToSnowflake_clamped o n t g g) by assumption.
    unfold ToSnowflake. cbn [ID]. f_equal. f_equal.
    unfold Int64.shl, Int64.to_int64. f_equal.
    rewrite <- (Zplus_mod_idemp_l (Z.shiftl o 23)).
    rewrite <- (Zplus_mod_idemp_l (Z.shiftl (o mod 2 ^ 41) 23)).
    f_equal. f_equal. bits. }
  rewrite E.
  pose proof (Z.mod_pos_bound o (2 ^ 41) ltac:(lia)).
  pose proof (Z.mod_pos_bound n 8192 ltac:(lia)).
  pose proof (Z.mod_pos_bound t 1024 ltac:(lia)).
  rewrite roundtrip_in_range by lia. reflexivity.
Qed.

Lemma ToSnowflake_truncates_object_id_witness :
  triple (NewSemanticSnowflake (ToSnowflake (mkSemantic (2 ^ 41 + 7) 50 100 0)))
  = ((2 ^ 41 + 7) mod 2 ^ 41, 50 mod 8192, 100 mod 1024).
Proof. apply (ToSnowflake_truncates_object_id (2 ^ 41 + 7) 50 100 0); lia. Defined.

(** X3: two triples within range (object id of 41 bits, node id below 8192,
    type id below 1024) that differ in a field encode to different
    identifiers. *)
Theorem ToSnowflake_injective (o1 n1 t1 g1 o2 n2 t2 g2 : Z) :
  0 <= o1 < 2 ^ 41 -> 0 <= n1 < 8192 -> 0 <= t1 < 1024 ->
  0 <= o2 < 2 ^ 41 -> 0 <= n2 < 8192 -> 0 <= t2 < 1024 ->
  (o1, n1, t1) <> (o2, n2, t2) ->
  ToSnowflake (mkSemantic o1 n1 t1 g1) <> ToSnowflake (mkSemantic o2 n2 t2 g2).
Proof.
  intros Ho1 Hn1 Ht1 Ho2 Hn2 Ht2 Hne E. apply Hne.
  apply (f_equal NewSemanticSnowflake) in E.
  rewrite !roundtrip_in_range in E by assumption.
  injection E as -> -> -> _. reflexivity.
Qed.

Lemma ToSnowflake_injective_witness :
  ToSnowflake (mkSemantic 340524230265 50 100 0)
  <> ToSnowflake (mkSemantic 340524230265 51 100 0).
Proof.
  apply (ToSnowflake_injective 340524230265 50 100 0 340524230265 51 100 0);
    try lia.
  intros C. discriminate C.
Defined.

(** X5: the wire form of a triple, made by [ToNetSnowflake], is read back
    by [ToID] and by [FromString] as the identifier [ToSnowflake] gives, for
    every triple; [Valid] accepts it exactly when that identifier is not
    negative. *)
Theorem ToNetSnowflake_reads_back (s : SemanticSnowflake) :
  ToID (ToNetSnowflake s) = ToSnowflake s /\
  FromString (ToNetSnowflake s) = ToSnowflake s /\
  (Valid (ToNetSnowflake s) = true <-> 0 <= ToSnowflake s).
Proof.
  unfold ToID, FromString, Valid, ToNetSnowflake, NewNetSnowflake.
  rewrite ParseInt_FormatInt by apply ToSnowflake_in_range.
  repeat split.
  - destruct (Z.ltb_spec (ToSnowflake s) 0); [discriminate | lia].
  - destruct (Z.ltb_spec (ToSnowflake s) 0); [lia | reflexivity].
Qed.

(** X6: a triple within range survives the way through its wire form:
    decoding what [FromString] reads from [ToNetSnowflake] gives the three
    fields back, also when the identifier is negative. *)
Theorem semantic_wire_roundtrip (o n t g : Z) :
  0 <= o < 2 ^ 41 -> 0 <= n < 8192 -> 0 <= t < 1024 ->
  triple (NewSemanticSnowflake (FromString (ToNetSnowflake (mkSemantic o n t g))))
  = (o, n, t).
Proof.
  intros Ho Hn Ht.
  unfold FromString, ToNetSnowflake, NewNetSnowflake.
  rewrite ParseInt_FormatInt by apply ToSnowflake_in_range.
  rewrite roundtrip_in_range by assumption. reflexivity.
Qed.

Lemma semantic_wire_roundtrip_witness :
  triple (NewSemanticSnowflake
            (FromString (ToNetSnowflake (mkSemantic (2 ^ 40 + 1) 50 100 0))))
  = (2 ^ 40 + 1, 50, 100).
Proof. apply (semantic_wire_roundtrip (2 ^ 40 + 1) 50 100 0); lia. Defined.

(** X7: every [int64], negative or not, printed by [NewNetSnowflake] is
    read back unchanged by [ToID] and [FromString]; [Valid] accepts the
    printed form exactly when the number is not negative. *)
Theorem wire_roundtrip_int64 (v : Z) :
  Int64.in_range v ->
  ToID (NewNetSnowflake v) = v /\ FromString (NewNetSnowflake v) = v /\
  (Valid (NewNetSnowflake v) = true <-> 0 <= v).
Proof.
  intros Hv. unfold ToID, FromString, Valid, NewNetSnowflake.
  rewrite ParseInt_FormatInt by assumption.
  repeat split.
  - destruct (Z.ltb_spec v 0); [discriminate | lia].
  - destruct (Z.ltb_spec v 0); [lia | reflexivity].
Qed.

Lemma wire_roundtrip_int64_witness :
  ToID (NewNetSnowflake (- 2 ^ 63)) = - 2 ^ 63 /\
  FromString (NewNetSnowflake (- 2 ^ 63)) = - 2 ^ 63 /\
  (Valid (NewNetSnowflake (- 2 ^ 63)) = true <-> 0 <= - 2 ^ 63).
Proof. apply (wire_roundtrip_int64 (- 2 ^ 63)). unfold Int64.in_range. lia. Defined.

(** X8: [ToID] and [FromString] agree on every string, and [Valid] holds
    exactly when the identifier they return is not negative. *)
Theorem Valid_iff_ToID_nonneg (s : NetSnowflake) :
  ToID s = FromString s /\ (Valid s = true <-> 0 <= ToID s).
Proof.
  unfold ToID, FromString, Valid.
  destruct (ParseInt s) as [i [e |]].
  - repeat split; [discriminate | lia].
  - repeat split.
    + destruct (Z.ltb_spec i 0); [discriminate | lia].
    + destruct (Z.ltb_spec i 0); [lia | reflexivity].
Qed.

Lemma not_digit_syntax c rest n :
  is_digit c = false -> ParseUint_loop (String c rest) n = (0, Some ErrSyntax).
Proof.
  intros H. rewrite ParseUint_loop_cons. unfold digit_value, is_digit in *.
  cbv zeta in *. rewrite H.
  destruct ((97 <=? lower _) && (lower _ <=? 122)) eqn:L; [| reflexivity].
  apply andb_prop in L as [L _]. apply Z.leb_le in L.
  unfold base. destruct (Z.leb_spec 10 (lower (Z.of_N (N_of_ascii c)) - 97 + 10));
    [reflexivity | lia].
Qed.

Lemma digit_value_is_digit c :
  is_digit c = true ->
  digit_value c = Some (Z.of_N (N_of_ascii c) - 48) /\
  0 <= Z.of_N (N_of_ascii c) - 48 < 10.
Proof.
  intros H. unfold digit_value, is_digit in *. cbv zeta in *. rewrite H.
  apply andb_prop in H as [H1 H2]. apply Z.leb_le in H1, H2. split; [reflexivity | lia].
Qed.

Lemma digits_value_grows s : forall n v,
  0 <= n -> digits_value s n = Some v -> n <= v.
Proof.
  induction s as [| c rest IH]; intros n v Hn; cbn [digits_value].
  - intros [= <-]. lia.
  - destruct (is_digit c) eqn:D; [| discriminate].
    destruct (digit_value_is_digit c D) as [_ Hd].
    intros H. apply IH in H; lia.
Qed.

(** [ParseUint_loop] reads the digits as a number, fails on a byte that is
    not a digit, and reports a number of more than 64 bits as out of range. *)
Lemma ParseUint_loop_spec s : forall n,
  0 <= n < 2 ^ 64 ->
  (exists v, ParseUint_loop s n = (v, None) /\ digits_value s n = Some v /\ v < 2 ^ 64) \/
  (ParseUint_loop s n = (0, Some ErrSyntax) /\ digits_value s n = None) \/
  (ParseUint_loop s n = (maxUint64, Some ErrRange) /\
   forall v, digits_value s n = Some v -> 2 ^ 64 <= v).
Proof.
  induction s as [| c rest IH]; intros n Hn.
  - left. exists n. simpl. repeat split; lia.
  - destruct (is_digit c) eqn:D.
    + destruct (digit_value_is_digit c D) as [Ed Hd].
      set (d := Z.of_N (N_of_ascii c) - 48) in *.
      rewrite ParseUint_loop_cons, Ed. cbn [digits_value]. rewrite D. fold d.
      unfold base, maxUint64, Int64.to_uint64.
      destruct (Z.leb_spec 10 d); [lia |].
      change ((2 ^ 64 - 1) / 10 + 1) with 1844674407370955162.
      destruct (Z.leb_spec 1844674407370955162 n) as [Hc | Hc].
      { right. right. split; [reflexivity |].
        intros v Hv. apply digits_value_grows in Hv; lia. }
      cbv zeta. rewrite (Z.mod_small (n * 10)) by lia.
      destruct (Z.lt_ge_cases (n * 10 + d) (2 ^ 64)) as [Hs | Hb].
      * rewrite (Z.mod_small (n * 10 + d)) by lia.
        destruct (Z.ltb_spec (n * 10 + d) (n * 10)); [lia |].
        destruct (Z.ltb_spec (2 ^ 64 - 1) (n * 10 + d)); [lia |].
        cbn [orb]. replace (10 * n + d) with (n * 10 + d) by lia.
        apply IH. lia.
      * assert (E : (n * 10 + d) mod 2 ^ 64 = n * 10 + d - 2 ^ 64).
        { replace (n * 10 + d) with (n * 10 + d - 2 ^ 64 + 1 * 2 ^ 64) at 1 by lia.
          rewrite Z.mod_add by lia. apply Z.mod_small. lia. }
        rewrite E.
        destruct (Z.ltb_spec (n * 10 + d - 2 ^ 64) (n * 10)); [| lia].
        cbn [orb]. right. right. split; [reflexivity |].
        intros v Hv. apply digits_value_grows in Hv; lia.
    + right. left. split; [apply not_digit_syntax, D |].
      cbn [digits_value]. rewrite D. reflexivity.
Qed.

Lemma ParseUint_spec s :
  (exists v, ParseUint s = (v, None) /\ numeral s = Some v /\ 0 <= v < 2 ^ 64) \/
  (ParseUint s = (0, Some ErrSyntax) /\ numeral s = None) \/
  (ParseUint s = (maxUint64, Some ErrRange) /\
   forall v, numeral s = Some v -> 2 ^ 64 <= v).
Proof.
  destruct s as [| c rest]; [right; left; split; reflexivity |].
  unfold ParseUint, numeral.
  destruct (ParseUint_loop_spec (String c rest) 0 ltac:(lia))
    as [(v & P & V & B) | [[P V] | [P V]]].
  - left. exists v. repeat split; try assumption.
    apply digits_value_grows in V; lia.
  - right. left. auto.
  - right. right. auto.
Qed.

Lemma to_int64_neg_uint un :
  0 <= un <= 2 ^ 63 -> Int64.to_int64 (- Int64.to_int64 un) = - un.
Proof.
  intros H. destruct (Z.eq_dec un (2 ^ 63)) as [-> | Hne]; [reflexivity |].
  rewrite (to_int64_small un) by (unfold Int64.in_range; lia).
  apply to_int64_small. unfold Int64.in_range. lia.
Qed.

(** [ParseInt] reads an optional sign and digits as an integer and fails
    when there is no such integer or when it is not an [int64]. *)
Lemma ParseInt_spec s :
  (exists v, ParseInt s = (v, None) /\ signed_numeral s = Some v /\ Int64.in_range v) \/
  ((exists e, snd (ParseInt s) = Some e) /\
   forall v, signed_numeral s = Some v -> ~ Int64.in_range v).
Proof.
  destruct s as [| c0 rest]; [right; split; [eexists; reflexivity | discriminate] |].
  unfold ParseInt, signed_numeral, Int64.in_range.
  destruct (Ascii.eqb c0 "+") eqn:Eplus; [| destruct (Ascii.eqb c0 "-") eqn:Eminus].
  - destruct (ParseUint_spec rest) as [(un & -> & -> & B) | [[-> ->] | [-> V]]].
    + cbn [negb andb]. destruct (Z.leb_spec (2 ^ 63) un).
      * right. split; [eexists; reflexivity |]. intros v [= <-]. lia.
      * left. exists un. rewrite to_int64_small by (unfold Int64.in_range; lia).
        repeat split; lia.
    + right. split; [eexists; reflexivity | discriminate].
    + right. split; [eexists; reflexivity |].
      intros v Hv. apply V in Hv. lia.
  - destruct (ParseUint_spec rest) as [(un & -> & -> & B) | [[-> ->] | [-> V]]].
    + cbn [negb andb option_map]. destruct (Z.ltb_spec (2 ^ 63) un).
      * right. split; [eexists; reflexivity |]. intros v [= <-]. lia.
      * left. exists (- un). rewrite to_int64_neg_uint by lia.
        repeat split; lia.
    + right. split; [eexists; reflexivity | discriminate].
    + right. split; [eexists; reflexivity |].
      destruct (numeral rest) as [un |]; [| discriminate].
      intros v [= <-]. specialize (V un eq_refl). lia.
  - destruct (ParseUint_spec (String c0 rest)) as [(un & -> & -> & B) | [[-> ->] | [-> V]]].
    + cbn [negb andb]. destruct (Z.leb_spec (2 ^ 63) un).
      * right. split; [eexists; reflexivity |]. intros v [= <-]. lia.
      * left. exists un. rewrite to_int64_small by (unfold Int64.in_range; lia).
        repeat split; lia.
    + right. split; [eexists; reflexivity | discriminate].
    + right. split; [eexists; reflexivity |].
      intros v Hv. apply V in Hv. lia.
Qed.

(** X9: [FromString] reads an optional sign followed by at least one
    decimal digit: it returns the integer so written when it is an [int64]
    and [-1] otherwise; [Valid] holds exactly when the string writes, in that
    form, an integer from 0 to [2 ^ 63 - 1]. *)
Theorem FromString_reads_decimal (s : string) :
  FromString s =
    match signed_numeral s with
    | Some v => if (- 2 ^ 63 <=? v) && (v <? 2 ^ 63) then v else -1
    | None => -1
    end /\
  Valid s =
    match signed_numeral s with
    | Some v => (0 <=? v) && (v <? 2 ^ 63)
    | None => false
    end.
Proof.
  unfold FromString, Valid.
  destruct (ParseInt_spec s) as [(v & -> & -> & R) | [[e E] V]].
  - unfold Int64.in_range in R.
    destruct (Z.leb_spec (- 2 ^ 63) v); [| lia].
    destruct (Z.ltb_spec v (2 ^ 63)); [| lia].
    destruct (Z.ltb_spec v 0), (Z.leb_spec 0 v); try lia; split; reflexivity.
  - destruct (ParseInt s) as [i err]. cbn [snd] in E. subst err.
    destruct (signed_numeral s) as [v |]; [| split; reflexivity].
    specialize (V v eq_refl). unfold Int64.in_range in V.
    destruct (Z.leb_spec (- 2 ^ 63) v), (Z.ltb_spec v (2 ^ 63)),
      (Z.leb_spec 0 v); try lia; split; reflexivity.
Qed.

Lemma wait_next_None t now clock :
  wait_next t now clock = None <->
  now <= t /\ Forall (fun r => millis r <= t) clock.
Proof.
  revert now. induction clock as [| r rest IH]; intros now; simpl.
  - destruct (Z.leb_spec now t); split; try discriminate; auto; lia.
  - destruct (Z.leb_spec now t).
    + rewrite IH. split.
      * intros [H1 H2]. auto.
      * intros [_ H2]. inversion H2; subst. auto.
    + split; [discriminate | lia].
Qed.

Lemma wait_next_stalled t now stalled r rest :
  now <= t -> Forall (fun x => millis x <= t) stalled -> t < millis r ->
  wait_next t now (stalled ++ r :: rest) = Some (millis r, rest).
Proof.
  revert now. induction stalled as [| x xs IH]; intros now Hnow Hst Hr; simpl.
  - destruct (Z.leb_spec now t); [| lia].
    destruct rest; simpl; destruct (Z.leb_spec (millis r) t); try lia; reflexivity.
  - destruct (Z.leb_spec now t); [| lia].
    inversion Hst; subst. apply IH; assumption.
Qed.

(** The three ways a call of [Next] can go. *)
Lemma Next_cases self ns clock1 id self' clock' :
  seqStep self = 4095 -> 0 <= sequence self <= 4095 ->
  Next self (ns :: clock1) = Some (id, self', clock') ->
  (millis ns <> time self /\ time self' = millis ns /\ sequence self' = 0 /\
   clock' = clock1) \/
  (millis ns = time self /\ sequence self < 4095 /\ time self' = time self /\
   sequence self' = sequence self + 1 /\ clock' = clock1) \/
  (millis ns = time self /\ sequence self = 4095 /\ sequence self' = 0 /\
   wait_next (time self) (millis ns) clock1 = Some (time self', clock')).
Proof.
  intros Hs Hseq. unfold Next, choose.
  replace (Z.land (Int64.to_int64 (sequence self + 1)) (seqStep self))
    with (if sequence self =? 4095 then 0 else sequence self + 1)
    by (rewrite Hs; symmetry; apply land_4095_succ; assumption).
  destruct (Z.eqb_spec (millis ns) (time self)) as [E | NE].
  - destruct (Z.eqb_spec (sequence self) 4095) as [E4 | NE4].
    + change (0 =? 0) with true. cbv iota.
      destruct (wait_next _ _ _) as [[now' c] |] eqn:W; [| discriminate].
      intros [= <- <- <-]. right. right. cbn. auto.
    + destruct (Z.eqb_spec (sequence self + 1) 0); [lia |].
      intros [= <- <- <-]. right. left. cbn. repeat split; auto; lia.
  - intros [= <- <- <-]. left. cbn. auto.
Qed.

Lemma shiftr_22_fields now node seq :
  0 <= now -> 0 <= node < 1024 -> 0 <= seq <= 4095 ->
  Z.shiftr (Z.lor (Z.lor (now * 2 ^ 22) (node * 2 ^ 10)) seq) 22 = now.
Proof.
  intros Hnow Hnode Hseq.
  rewrite <- (Z.mod_small (node * 2 ^ 10) (2 ^ 22)) by lia.
  rewrite <- (Z.mod_small seq (2 ^ 22)) by lia.
  rewrite <- Z.shiftl_mul_pow2 by lia. bits.
Qed.

(** One call on a clock that never goes back. *)
Lemma Next_advances_step self clock id self' clock' :
  ready self -> steady (time self) clock ->
  Next self clock = Some (id, self', clock') ->
  (time self < time self' \/
   (time self' = time self /\ sequence self' = sequence self + 1)) /\
  Z.shiftr id 22 = time self' /\
  ready self' /\ steady (time self') clock'.
Proof.
  intros ((Hs & Ht & Hn) & Hnode & Hseq & Htime) St HN.
  destruct clock as [| ns clock1]; [discriminate |].
  pose proof (Next_inv _ _ _ _ _ HN) as (Eid & _ & _ & E1 & E2 & E3 & E4).
  pose proof (steady_tail _ _ _ St) as St1.
  destruct St as [_ F]. inversion F as [| ? ? Hns _]; subst x l.
  assert (Fin : 0 <= time self' < 2 ^ 41 -> 0 <= sequence self' <= 4095 ->
                Z.shiftr id 22 = time self' /\ ready self').
  { intros Hnow Hsq. split.
    - rewrite Eid, Ht, Hn, !shl_small by lia. apply shiftr_22_fields; lia.
    - unfold ready, configured. repeat split; try lia; congruence. }
  apply Next_cases in HN as [(NE & T & Sq & ->) | [(E & Lt & T & Sq & ->) | (E & E4' & Sq & W)]];
    try assumption.
  - destruct Fin as [F1 F2]; [lia | lia |].
    split; [left; lia | split; [exact F1 | split; [exact F2 |]]].
    rewrite T. exact St1.
  - destruct Fin as [F1 F2]; [lia | lia |].
    split; [right; lia | split; [exact F1 | split; [exact F2 |]]].
    rewrite T, <- E. exact St1.
  - apply wait_next_steady in W as [[Hlt Hle] Hc]; [| assumption | lia].
    destruct Fin as [F1 F2]; [lia | lia |].
    split; [left; lia | split; [exact F1 | split; [exact F2 | exact Hc]]].
Qed.

Ltac concrete :=
  repeat match goal with
         | |- _ /\ _ => split
         | |- StronglySorted _ _ => constructor
         | |- Forall _ _ => constructor
         | |- (_ <= _)%Z => vm_compute; intros C; discriminate C
         | |- (_ < _)%Z => vm_compute; reflexivity
         | |- _ = _ => reflexivity
         end.

(** X10: on a clock that never goes back, a call of [Next] moves the pair
    of recorded time and sequence strictly forward (a later millisecond, or
    the same one with the sequence plus one), returns an identifier whose
    bits from 22 up are the recorded time, and leaves the generator ready
    for the next call. *)
Theorem Next_advances self clock id self' clock' :
  ready self -> steady (time self) clock ->
  Next self clock = Some (id, self', clock') ->
  (time self < time self' \/
   (time self' = time self /\ sequence self' = sequence self + 1)) /\
  Z.shiftr id 22 = time self' /\
  ready self' /\ steady (time self') clock'.
Proof. apply Next_advances_step. Qed.

Lemma Next_advances_witness :
  let self := mkNode 7 41 10 12 4095 22 10 5 3 in
  let self' := mkNode 8 41 10 12 4095 22 10 5 3 in
  (time self < time self' \/
   (time self' = time self /\ sequence self' = sequence self + 1)) /\
  Z.shiftr 20974600 22 = time self' /\
  ready self' /\ steady (time self') [6000000].
Proof.
  intros self self'.
  apply (Next_advances self [5000000; 6000000] 20974600 self' [6000000]).
  - unfold ready, configured. cbn. concrete.
  - unfold steady. cbn [time self]. concrete.
  - reflexivity.
Defined.

(** X11: on a clock that never goes back, the identifiers of any number of
    calls in a row never return to an earlier millisecond: their bits from
    22 up, the time, do not decrease, for every node id below 1024. *)
Theorem NextN_sorted_by_millisecond n : forall self clock ids self' clock',
  ready self -> steady (time self) clock ->
  NextN n self clock = Some (ids, self', clock') ->
  StronglySorted (fun a b => Z.shiftr a 22 <= Z.shiftr b 22) ids /\
  Forall (fun id => time self <= Z.shiftr id 22) ids.
Proof.
  induction n as [| n IH]; intros self clock ids self' clock' Hr St; simpl.
  - intros [= <- _ _]. split; constructor.
  - destruct (Next self clock) as [[[id s1] c1] |] eqn:N1; [| discriminate].
    destruct (NextN n s1 c1) as [[[ids1 s2] c2] |] eqn:N2; [| discriminate].
    intros [= <- _ _].
    apply Next_advances_step in N1 as (Adv & Eid & Hr1 & St1); try assumption.
    apply IH in N2 as [Sd Fa]; try assumption.
    assert (Hle : time self <= time s1) by lia.
    split.
    + constructor; [assumption |]. rewrite Eid. exact Fa.
    + constructor; [lia |].
      rewrite Forall_forall in *. intros x Hx. specialize (Fa x Hx). lia.
Qed.

Lemma NextN_sorted_by_millisecond_witness :
  StronglySorted (fun a b => Z.shiftr a 22 <= Z.shiftr b 22)
                 [20972544; 20972545; 25166848] /\
  Forall (fun id => 0 <= Z.shiftr id 22) [20972544; 20972545; 25166848].
Proof.
  apply (NextN_sorted_by_millisecond 3 (NewSnowflakeNode 1)
           [5000000; 5999999; 6000000] [20972544; 20972545; 25166848]
           (mkNode 0 41 10 12 4095 22 10 6 1) []).
  - unfold ready, configured. cbn. concrete.
  - unfold steady. cbn [time NewSnowflakeNode]. concrete.
  - reflexivity.
Defined.

(** X12: [Next] fails to return on a clock trace exactly when the trace is
    empty, or when the sequence of the current millisecond is used up (it is
    4095) and no later reading of the trace is past that millisecond. *)
Theorem Next_blocks_iff self clock :
  seqStep self = 4095 -> 0 <= sequence self <= 4095 ->
  (Next self clock = None <->
   clock = [] \/
   exists ns rest,
     clock = ns :: rest /\ millis ns = time self /\ sequence self = 4095 /\
     Forall (fun r => millis r <= time self) rest).
Proof.
  intros Hs Hseq. destruct clock as [| ns rest].
  - split; [auto | reflexivity].
  - unfold Next, choose.
    replace (Z.land (Int64.to_int64 (sequence self + 1)) (seqStep self))
      with (if sequence self =? 4095 then 0 else sequence self + 1)
      by (rewrite Hs; symmetry; apply land_4095_succ; assumption).
    destruct (Z.eqb_spec (millis ns) (time self)) as [E | NE].
    + destruct (Z.eqb_spec (sequence self) 4095) as [E4 | NE4].
      * change (0 =? 0) with true. cbv iota.
        destruct (wait_next _ _ _) as [[now' c] |] eqn:W.
        -- split; [discriminate |].
           intros [C | (ns' & rest' & [= <- <-] & _ & _ & F)]; [discriminate C |].
           assert (W' : wait_next (time self) (millis ns) rest = None)
             by (apply wait_next_None; split; [lia | exact F]).
           congruence.
        -- split; [| reflexivity]. intros _. right. exists ns, rest.
           apply wait_next_None in W as [_ F]. auto.
      * destruct (Z.eqb_spec (sequence self + 1) 0); [lia |].
        split; [discriminate |].
        intros [C | (ns' & rest' & _ & _ & C & _)]; [discriminate C | lia].
    + split; [discriminate |].
      intros [C | (ns' & rest' & [= <- <-] & C & _)]; [discriminate C | lia].
Qed.

Lemma Next_blocks_iff_witness :
  let self := mkNode 4095 41 10 12 4095 22 10 5 1 in
  Next self [5000000; 5000001; 5999999] = None <->
  [5000000; 5000001; 5999999] = [] \/
  exists ns rest,
    [5000000; 5000001; 5999999] = ns :: rest /\ millis ns = time self /\
    sequence self = 4095 /\ Forall (fun r => millis r <= time self) rest.
Proof.
  intros self. apply (Next_blocks_iff self [5000000; 5000001; 5999999]).
  - reflexivity.
  - cbn. lia.
Defined.

(** X13: within the recorded millisecond, [Next] takes one clock reading
    and the next sequence number while the sequence is below 4095; at 4095 it
    reads the clock until a later millisecond shows, records that
    millisecond and restarts the sequence at 0. *)
Theorem Next_same_millisecond self ns clock :
  seqStep self = 4095 -> 0 <= sequence self <= 4095 -> millis ns = time self ->
  (sequence self < 4095 ->
   exists id self',
     Next self (ns :: clock) = Some (id, self', clock) /\
     time self' = time self /\ sequence self' = sequence self + 1) /\
  (sequence self = 4095 ->
   forall stalled r rest,
     clock = stalled ++ r :: rest ->
     Forall (fun x => millis x <= time self) stalled -> time self < millis r ->
     exists id self',
       Next self (ns :: clock) = Some (id, self', rest) /\
       time self' = millis r /\ sequence self' = 0).
Proof.
  intros Hs Hseq E. unfold Next, choose.
  replace (Z.land (Int64.to_int64 (sequence self + 1)) (seqStep self))
    with (if sequence self =? 4095 then 0 else sequence self + 1)
    by (rewrite Hs; symmetry; apply land_4095_succ; assumption).
  rewrite E, Z.eqb_refl. split.
  - intros Hlt. destruct (Z.eqb_spec (sequence self) 4095); [lia |].
    destruct (Z.eqb_spec (sequence self + 1) 0); [lia |].
    eexists. eexists. split; [reflexivity |]. cbn. auto.
  - intros E4 stalled r rest -> Hst Hr. rewrite E4. cbn [Z.eqb Pos.eqb].
    rewrite wait_next_stalled by (assumption || lia).
    eexists. eexists. split; [reflexivity |]. cbn. auto.
Qed.

Lemma Next_same_millisecond_witness :
  (exists id self',
     Next (mkNode 7 41 10 12 4095 22 10 5 1) [5000000; 6000000]
       = Some (id, self', [6000000]) /\
     time self' = 5 /\ sequence self' = 7 + 1) /\
  (exists id self',
     Next (mkNode 4095 41 10 12 4095 22 10 5 1)
          (5000000 :: [5000001; 5999999] ++ 6000000 :: [6000001])
       = Some (id, self', [6000001]) /\
     time self' = millis 6000000 /\ sequence self' = 0).
Proof.
  split.
  - destruct (Next_same_millisecond (mkNode 7 41 10 12 4095 22 10 5 1)
                5000000 [6000000]) as [A _].
    + reflexivity.
    + cbn. lia.
    + reflexivity.
    + apply A. cbn. lia.
  - destruct (Next_same_millisecond (mkNode 4095 41 10 12 4095 22 10 5 1)
                5000000 ([5000001; 5999999] ++ 6000000 :: [6000001])) as [_ B].
    + reflexivity.
    + cbn. lia.
    + reflexivity.
    + apply (B eq_refl [5000001; 5999999] 6000000 [6000001] eq_refl).
      * cbn [time]. concrete.
      * cbn [time]. concrete.
Defined.

(** X14: [Next] has no guard against a clock that goes back: on a reading
    earlier than the recorded time it records the earlier time, restarts the
    sequence at 0 and returns an identifier below every identifier of the
    millisecond recorded before. *)
Theorem Next_clock_goes_back self ns clock :
  ready self -> time self < 2 ^ 41 -> 0 <= millis ns < time self ->
  exists id self',
    Next self (ns :: clock) = Some (id, self', clock) /\
    time self' = millis ns /\ sequence self' = 0 /\
    Z.shiftr id 22 = millis ns /\ id < time self * 2 ^ 22.
Proof.
  intros ((Hs & Ht & Hn) & Hnode & Hseq & Htime) Hmax Hback.
  unfold Next, choose.
  destruct (Z.eqb_spec (millis ns) (time self)); [lia |].
  eexists. eexists. split; [reflexivity |]. cbn [time sequence].
  rewrite Ht, Hn, !shl_small by lia.
  pose proof (shiftr_22_fields (millis ns) (nodeId self) 0 ltac:(lia) Hnode ltac:(lia)) as Sh.
  repeat split; try assumption.
  set (id := Z.lor _ 0) in *. rewrite Z.shiftr_div_pow2 in Sh by lia.
  pose proof (Z.div_mod id (2 ^ 22) ltac:(lia)).
  pose proof (Z.mod_pos_bound id (2 ^ 22) ltac:(lia)). nia.
Qed.

Lemma Next_clock_goes_back_witness :
  exists id self',
    Next (mkNode 3 41 10 12 4095 22 10 10 1) [9000000; 10000000]
      = Some (id, self', [10000000]) /\
    time self' = millis 9000000 /\ sequence self' = 0 /\
    Z.shiftr id 22 = millis 9000000 /\ id < 10 * 2 ^ 22.
Proof.
  apply (Next_clock_goes_back (mkNode 3 41 10 12 4095 22 10 10 1) 9000000 [10000000]).
  - unfold ready, configured. cbn. concrete.
  - concrete.
  - cbn [time]. concrete.
Defined.

Lemma Next_increasing_without_overlap_witness :
  StronglySorted Z.lt [25165824; 25165825; 29360128] /\
  NoDup [25165824; 25165825; 29360128].
Proof.
  apply (Next_increasing_without_overlap 0 3 [6000000; 6999999; 7000000]
           [25165824; 25165825; 29360128] (mkNode 0 41 10 12 4095 22 10 7 0) []).
  - lia.
  - reflexivity.
  - unfold steady. concrete.
  - reflexivity.
Defined.

(** X16: a JSON string sets the receiver of [UnmarshalJSON] to the integer
    it writes (an optional sign and decimal digits) when that integer is an
    [int64], negative ones included, and gives an error otherwise; and
    whenever [UnmarshalJSON] returns an error the receiver keeps its
    value. *)
Theorem UnmarshalJSON_string_or_error :
  (forall s sf,
     match signed_numeral s with
     | Some v =>
       if (- 2 ^ 63 <=? v) && (v <? 2 ^ 63)
       then UnmarshalJSON (json_string s) sf = (v, None)
       else exists e, UnmarshalJSON (json_string s) sf = (sf, Some e)
     | None => exists e, UnmarshalJSON (json_string s) sf = (sf, Some e)
     end) /\
  (forall decoded sf,
     snd (UnmarshalJSON decoded sf) <> None ->
     fst (UnmarshalJSON decoded sf) = sf).
Proof.
  split.
  - intros s sf. unfold UnmarshalJSON, json_string.
    destruct (ParseInt_spec s) as [(v & -> & -> & R) | [[e E] V]].
    + unfold Int64.in_range in R.
      destruct (Z.leb_spec (- 2 ^ 63) v); [| lia].
      destruct (Z.ltb_spec v (2 ^ 63)); [reflexivity | lia].
    + destruct (ParseInt s) as [i err]. cbn [snd] in E. subst err.
      destruct (signed_numeral s) as [v |]; [| eexists; reflexivity].
      specialize (V v eq_refl). unfold Int64.in_range in V.
      destruct (Z.leb_spec (- 2 ^ 63) v), (Z.ltb_spec v (2 ^ 63));
        try lia; eexists; reflexivity.
  - intros decoded sf. unfold UnmarshalJSON.
    destruct decoded as [err | itm]; [reflexivity |].
    destruct itm; cbn [fst snd]; try reflexivity; try congruence.
    destruct (ParseInt s) as [i [ne |]]; cbn [fst snd]; [reflexivity | congruence].
Qed.

Lemma UnmarshalJSON_string_or_error_witness :
  fst (UnmarshalJSON (json_string "12x"%string) 7) = 7.
Proof.
  destruct UnmarshalJSON_string_or_error as [_ K].
  apply (K (json_string "12x"%string) 7).
  vm_compute. intros C. discriminate C.
Defined.

Lemma list_ascii_of_string_append a b :
  list_ascii_of_string (a ++ b)%string
  = (list_ascii_of_string a ++ list_ascii_of_string b)%list.
Proof. induction a as [| c a IH]; simpl; [reflexivity | rewrite IH; reflexivity]. Qed.

Lemma append_inv_tail a b q : (a ++ q)%string = (b ++ q)%string -> a = b.
Proof.
  intros E. apply (f_equal list_ascii_of_string) in E.
  rewrite !list_ascii_of_string_append in E. apply app_inv_tail in E.
  rewrite <- (string_of_list_ascii_of_string a), <- (string_of_list_ascii_of_string b).
  congruence.
Qed.

(** X17: two different identifiers have different wire forms and
    different JSON encodings. *)
Theorem wire_forms_distinct (v1 v2 : Z) :
  Int64.in_range v1 -> Int64.in_range v2 -> v1 <> v2 ->
  NewNetSnowflake v1 <> NewNetSnowflake v2 /\
  fst (MarshalJSON v1) <> fst (MarshalJSON v2).
Proof.
  intros H1 H2 Hne.
  assert (Inj : FormatInt v1 = FormatInt v2 -> v1 = v2).
  { intros E. pose proof (ParseInt_FormatInt v1 H1) as P1.
    rewrite E, ParseInt_FormatInt in P1 by assumption. congruence. }
  split.
  - intros E. apply Hne, Inj, E.
  - unfold MarshalJSON. cbn [fst]. intros E. apply Hne, Inj.
    injection E as E. apply append_inv_tail in E. exact E.
Qed.

Lemma wire_forms_distinct_witness :
  NewNetSnowflake 5 <> NewNetSnowflake (-5) /\
  fst (MarshalJSON 5) <> fst (MarshalJSON (-5)).
Proof.
  apply (wire_forms_distinct 5 (-5)); unfold Int64.in_range; lia.
Defined.
